(** * Audio pipeline of the live-music control surface

    A shallow embedding of the numeric and timing core of [src/utils.ts] and
    [src/index.tsx]: the 16-bit PCM codec, the peak envelope of the
    resampler, the streaming playback scheduler, the bit-crusher and the
    parameter set of the effects chain.

    Numbers.  A JavaScript [number] or [Float32Array] element that holds a
    finite value is modelled by the rational it denotes ([Q]); the
    operations the modelled code applies to samples (scaling by a power of
    two, comparison, [Math.floor], the integer conversion of a typed array)
    are exact on such values.  Byte lengths, indices and 16-bit integers are
    [nat] and [Z].  Equality of rationals is [Qeq] ([==]) unless the two
    sides are built by the same operations. *)

From Stdlib Require Import ZArith QArith Qabs Qround Qpower List String Bool.
From Stdlib Require Import Lia Lqa.
From Stdlib.Strings Require Import Byte.
Import ListNotations.

Local Open Scope Q_scope.

(** ** Error-returning computations

    A JavaScript exception ([RangeError] of a [DataView] read,
    [NotSupportedError] of [createBuffer]) is [None]. *)

Definition bind {A B : Type} (m : option A) (k : A -> option B) : option B :=
  match m with
  | Some a => k a
  | None => None
  end.

Notation "x <- m ;; k" := (bind m (fun x => k))
  (at level 61, m at next level, right associativity).

(** ** [Math] functions on finite numbers *)

Definition Math_max (a b : Q) : Q := if Qle_bool a b then b else a.
Definition Math_min (a b : Q) : Q := if Qle_bool a b then a else b.
Definition Math_abs (a : Q) : Q := Qabs a.
Definition Math_floor (a : Q) : Z := Qfloor a.
(** [Math.round] rounds to the nearest integer, halves upwards. *)
Definition Math_round (a : Q) : Z := Qfloor (a + (1 # 2)).

(** The comparisons [a < b] and [a === b] are [Qlt_bool] and [Qeq_bool]. *)
Definition Qlt_bool (a b : Q) : bool := negb (Qle_bool b a).

(** ** [src/utils.ts] *)

Module Utils.

(** *** Typed arrays and [DataView] *)

Definition Z_of_byte (b : byte) : Z := Z.of_N (Byte.to_N b).

Definition byte_of_Z (z : Z) : byte :=
  match Byte.of_N (Z.to_N (z mod 256)) with
  | Some b => b
  | None => x00
  end.

(** Storing a number into an [Int16Array] element: the fractional part is
    dropped (towards zero) and the integer is wrapped modulo [2^16] into the
    signed range. *)
Definition truncate (q : Q) : Z :=
  if Qle_bool 0 q then Qfloor q else (- Qfloor (- q))%Z.

Definition wrapInt16 (n : Z) : Z :=
  let u := (n mod 65536)%Z in
  if (32768 <=? u)%Z then (u - 65536)%Z else u.

Definition toInt16 (q : Q) : Z := wrapInt16 (truncate q).

(** [new Uint8Array(int16.buffer)]: the two bytes of an element, low byte
    first. *)
Definition int16Bytes (v : Z) : list byte :=
  let u := (v mod 65536)%Z in
  [byte_of_Z (u mod 256); byte_of_Z (u / 256)].

(** [view.getInt16(dataIndex, true)]; a read that does not fit in the view
    throws. *)
Definition getInt16 (view : list byte) (dataIndex : nat) : option Z :=
  lo <- nth_error view dataIndex ;;
  hi <- nth_error view (S dataIndex) ;;
  Some (wrapInt16 (Z_of_byte lo + 256 * Z_of_byte hi)).

(** *** [createBlobFromFloat32] *)

(** The right-hand side of [int16[i] = ...]. *)
Definition clampSample (s : Q) : Q :=
  Math_max (-32768) (Math_min 32767 (s * 32768)).

Definition int16OfSample (s : Q) : Z := toInt16 (clampSample s).

Definition int16Array (data : list Q) : list Z := map int16OfSample data.

(** The bytes handed to [encode] (the base64 text of these bytes is the
    [data] field of the blob). *)
Definition createBlobFromFloat32 (data : list Q) : list byte :=
  flat_map int16Bytes (int16Array data).

(** The encoder in the words of the specification:
    [round(clamp(s, -1, 1) * 32768)], clamped to the signed 16-bit range. *)
Definition encodePcm16_spec (s : Q) : Z :=
  Z.max (-32768)
    (Z.min 32767 (Math_round (Math_max (-1) (Math_min 1 s) * 32768))).

(** *** [decodeAudioData] *)

Record AudioBuffer := mkAudioBuffer {
  numberOfChannels : nat;
  bufferLength : nat;
  sampleRate : Q;
  channels : list (list Q)
}.

(** [ctx.createBuffer(numChannels, length, sampleRate)]: silent channels; the
    call throws when there is no channel. *)
Definition createBuffer (numChannels len : nat) (rate : Q) : option AudioBuffer :=
  match numChannels with
  | O => None
  | _ => Some (mkAudioBuffer numChannels len rate
                 (repeat (repeat 0 len) numChannels))
  end.

Definition duration (b : AudioBuffer) : Q :=
  inject_Z (Z.of_nat (bufferLength b)) / sampleRate b.

(** [Math.floor(data.byteLength / 2 / numChannels)].  Without a channel
    the quotient is not finite in the source and [createBuffer] throws; here
    it is 0 and [createBuffer] fails as well. *)
Definition numSamplesOf (byteLength numChannels : nat) : nat :=
  Z.to_nat (Math_floor (inject_Z (Z.of_nat byteLength) / 2
                          / inject_Z (Z.of_nat numChannels))).

(** The inner loop: [n] samples of one channel, read from byte offset
    [dataIndex] on, [numChannels * 2] bytes apart. *)
Fixpoint fillChannel (view : list byte) (numChannels dataIndex n : nat)
  : option (list Q) :=
  match n with
  | O => Some []
  | S n' =>
      sample <- getInt16 view dataIndex ;;
      rest <- fillChannel view numChannels (dataIndex + numChannels * 2) n' ;;
      Some (inject_Z sample / 32768 :: rest)
  end.

(** The outer loop, over the channels [channel, channel + 1, ...]. *)
Fixpoint fillChannels (view : list byte) (numChannels numSamples channel k : nat)
  : option (list (list Q)) :=
  match k with
  | O => Some []
  | S k' =>
      c <- fillChannel view numChannels (channel * 2) numSamples ;;
      rest <- fillChannels view numChannels numSamples (S channel) k' ;;
      Some (c :: rest)
  end.

Definition decodeAudioData (data : list byte) (rate : Q) (numChannels : nat)
  : option AudioBuffer :=
  let numSamples := numSamplesOf (List.length data) numChannels in
  if Nat.eqb numSamples 0 then createBuffer numChannels 1 rate
  else
    _ <- createBuffer numChannels numSamples rate ;;
    chans <- fillChannels data numChannels numSamples 0 numChannels ;;
    Some (mkAudioBuffer numChannels numSamples rate chans).

(** Two buffers agree within [eps] sample by sample (and in length). *)
Definition approxBuffer (eps : Q) (b b' : list Q) : Prop :=
  Forall2 (fun x y => Qabs (y - x) <= eps) b b'.

(** *** The peak envelope of [resampleAndEncodeAudio] *)

Definition waveformLength : nat := 1024.

(** A read of a [Float32Array]; past the end it yields [undefined]. *)
Definition readSample (mono : list Q) (j : nat) : option Q := nth_error mono j.

(** The inner loop over [j = start, ..., start + count - 1]; a comparison
    with [Math.abs(undefined)], which is [NaN], is false. *)
Fixpoint windowMax (mono : list Q) (start count : nat) (max : Q) : Q :=
  match count with
  | O => max
  | S count' =>
      let max' :=
        match readSample mono start with
        | Some v => let val := Math_abs v in
                    if Qle_bool val max then max else val
        | None => max
        end in
      windowMax mono (S start) count' max'
  end.

Definition waveformStep (len : nat) : nat :=
  Z.to_nat (Math_floor (inject_Z (Z.of_nat len)
                          / inject_Z (Z.of_nat waveformLength))).

Definition waveformData (mono : list Q) : list Q :=
  let step := waveformStep (List.length mono) in
  map (fun i => windowMax mono (i * step) step 0) (seq 0 waveformLength).

(** *** The downmix of [resampleAndEncodeAudio]

    The function is modelled from the resampled buffer on (the rendering
    of [resampleAudioBuffer] is the browser's); sums and quotients are the
    exact values. *)

(** The inner loop [for (j = 0; j < numChannels; j++) sum += channels[j][i]],
    from channel [j] on, [k] channels to go.  A channel or a sample that
    does not exist makes the sum not a number. *)
Fixpoint sumChannels (chans : list (list Q)) (i j k : nat) (sum : Q)
  : option Q :=
  match k with
  | O => Some sum
  | S k' =>
      c <- nth_error chans j ;;
      v <- nth_error c i ;;
      sumChannels chans i (S j) k' (sum + v)
  end.

(** The outer loop, from frame [i] on, [n] frames to go. *)
Fixpoint mixFrames (chans : list (list Q)) (numChannels i n : nat)
  : option (list Q) :=
  match n with
  | O => Some []
  | S n' =>
      sum <- sumChannels chans i 0 numChannels 0 ;;
      rest <- mixFrames chans numChannels (S i) n' ;;
      Some (sum / inject_Z (Z.of_nat numChannels) :: rest)
  end.

(** [monoChannel.set(source)] on a zero-filled array of [len] elements; a
    longer source throws. *)
Definition setInto (len : nat) (source : list Q) : option (list Q) :=
  if (List.length source <=? len)%nat
  then Some (source ++ repeat 0 (len - List.length source))
  else None.

Definition downmix (resampledBuffer : AudioBuffer) : option (list Q) :=
  let numChannels := numberOfChannels resampledBuffer in
  let len := bufferLength resampledBuffer in
  if (1 <? numChannels)%nat
  then mixFrames (channels resampledBuffer) numChannels 0 len
  else
    c <- nth_error (channels resampledBuffer) 0 ;;
    setInto len c.

(** What [resampleAndEncodeAudio] returns for the resampled buffer: the
    bytes of the blob and the envelope. *)
Definition resampleAndEncodeAudio (resampledBuffer : AudioBuffer)
  : option (list byte * list Q) :=
  monoChannel <- downmix resampledBuffer ;;
  Some (createBlobFromFloat32 monoChannel, waveformData monoChannel).

(** An [AudioBuffer] as the browser makes them: at least one channel, every
    channel of the length of the buffer. *)
Definition wellFormed (b : AudioBuffer) : Prop :=
  (0 < numberOfChannels b)%nat
  /\ List.length (channels b) = numberOfChannels b
  /\ Forall (fun c => List.length c = bufferLength b) (channels b).

End Utils.

(** ** The playback scheduler of [src/index.tsx]

    The fields of [PromptDj] that the chunk handler of [connectToSession],
    [pauseAudio], [loadAudio] and [stopAudio] read and write, with the part
    of the audio graph they connect to.  [now] is
    [this.audioContext.currentTime] at the call; the recording branch of
    [pauseAudio] and [stopAudio] ([isRecording]) is outside the model. *)

Module Scheduler.
Import Utils.

Inductive PlaybackState : Set := stopped | playing | loading | paused.

Inductive AudioNode : Set :=
| GainNode (id : nat)       (* a node made by createGain for outputNode *)
| BufferSource (id : nat)   (* a node made by createBufferSource *)
| LowPassFilter | HighPassFilter
| BitCrusherNode | BitCrusherBypass
| DistortionNode | DistortionBypass
| PhaserStage (i : nat) | PhaserWet | PhaserBypass
| DelayNode | DelayFeedbackGain | DelayWet | DelayBypass
| ReverbNode | ReverbWet | ReverbBypass
| VinylNoiseNode | VinylNoiseGain
| AnalyserNode | MasterOut | Destination.

Definition AudioNode_eq_dec (a b : AudioNode) : {a = b} + {a <> b}.
Proof. decide equality; apply Nat.eq_dec. Defined.

Definition Connection : Set := (AudioNode * AudioNode)%type.

(** Calls on an [AudioParam]. *)
Inductive AutomationEvent : Set :=
| SetValueAtTime (value time : Q)
| LinearRampToValueAtTime (value endTime : Q).

Inductive SessionCall : Set := SessionPause | SessionPlay | SessionStop.

(** A pending [setTimeout] whose callback sets [playbackState = 'playing']. *)
Record Timer : Set := mkTimer { setAt : Q; delayMs : Q }.

(** A [source.start(when)] call. *)
Record Scheduled : Set := mkScheduled {
  source : AudioNode;
  when : Q;
  segment : AudioBuffer
}.

Record State : Set := mkState {
  playbackState : PlaybackState;
  nextStartTime : Q;
  outputNode : AudioNode;
  connections : list Connection;
  nodeCount : nat;                  (* nodes created so far *)
  started : list Scheduled;         (* in call order *)
  masterOutGain : list AutomationEvent;
  timers : list Timer;
  session : list SessionCall;
  connectionError : bool
}.

Definition bufferTime : Q := 2.

(** The connections made by the constructor, in source order. *)
Definition constructorConnections : list Connection :=
  [ (GainNode 0, LowPassFilter);
    (LowPassFilter, HighPassFilter);
    (HighPassFilter, BitCrusherNode);
    (HighPassFilter, BitCrusherBypass);
    (BitCrusherNode, DistortionNode);
    (BitCrusherNode, DistortionBypass);
    (BitCrusherBypass, DistortionNode);
    (BitCrusherBypass, DistortionBypass);
    (DistortionNode, PhaserBypass);
    (DistortionBypass, PhaserBypass);
    (DistortionNode, PhaserStage 0);
    (DistortionBypass, PhaserStage 0);
    (PhaserStage 0, PhaserStage 1);
    (PhaserStage 1, PhaserStage 2);
    (PhaserStage 2, PhaserStage 3);
    (PhaserStage 3, PhaserWet);
    (PhaserBypass, DelayBypass);
    (PhaserWet, DelayBypass);
    (PhaserBypass, DelayNode);
    (PhaserWet, DelayNode);
    (DelayNode, DelayFeedbackGain);
    (DelayFeedbackGain, DelayNode);
    (DelayNode, DelayWet);
    (DelayBypass, ReverbBypass);
    (DelayWet, ReverbBypass);
    (DelayBypass, ReverbNode);
    (DelayWet, ReverbNode);
    (ReverbNode, ReverbWet);
    (ReverbBypass, AnalyserNode);
    (ReverbWet, AnalyserNode);
    (VinylNoiseNode, VinylNoiseGain);
    (VinylNoiseGain, AnalyserNode);
    (AnalyserNode, MasterOut);
    (MasterOut, Destination) ].

(** [node.disconnect()]: every outgoing connection of [node] is removed. *)
Definition disconnect (node : AudioNode) (conns : list Connection)
  : list Connection :=
  filter (fun c => if AudioNode_eq_dec (fst c) node then false else true) conns.

(** The state the constructor leaves: its call of [updateFxChain] finds
    [isBitCrusherOn] false and disconnects the bit-crusher node. *)
Definition initialState : State :=
  mkState stopped 0 (GainNode 0)
          (disconnect BitCrusherNode constructorConnections)
          1 [] [] [] [] true.

(** Lines 2189-2207: the handler once the chunk is decoded. *)
Definition scheduleSegment (now : Q) (audioBuffer : AudioBuffer) (s : State)
  : State :=
  let src := BufferSource (nodeCount s) in
  let conns := connections s ++ [(src, outputNode s)] in
  let fresh := Qeq_bool (nextStartTime s) 0 in
  let startTime := if fresh then now + bufferTime else nextStartTime s in
  let tms := if fresh then timers s ++ [mkTimer now (bufferTime * 1000)]
             else timers s in
  if Qlt_bool startTime now then
    (* under run: the source was created and connected, never started *)
    mkState loading 0 (outputNode s) conns (S (nodeCount s)) (started s)
            (masterOutGain s) tms (session s) (connectionError s)
  else
    mkState (playbackState s) (startTime + duration audioBuffer)
            (outputNode s) conns (S (nodeCount s))
            (started s ++ [mkScheduled src startTime audioBuffer])
            (masterOutGain s) tms (session s) (connectionError s).

(** Lines 2177-2208, for a message that carries a chunk ([data] is what
    [decode] makes of its base64 text): the guard, the decoding (48 kHz,
    two channels) and the scheduling.  The handler is taken as one step:
    the state is not changed between the guard and the scheduling. *)
Definition onAudioChunk (now : Q) (data : list byte) (s : State)
  : option State :=
  match playbackState s with
  | paused | stopped => Some s
  | _ =>
      audioBuffer <- decodeAudioData data 48000 2 ;;
      Some (scheduleSegment now audioBuffer s)
  end.

(** The callback of the timer set by the handler. *)
Definition timerFires (s : State) : State :=
  mkState playing (nextStartTime s) (outputNode s) (connections s)
          (nodeCount s) (started s) (masterOutGain s) (tl (timers s))
          (session s) (connectionError s).

(** [pauseAudio], for a player that is not recording (line 2379 then does
    nothing) and whose session is connected. *)
Definition pauseAudio (now : Q) (s : State) : State :=
  let fresh := GainNode (nodeCount s) in
  mkState paused 0 fresh
          (connections s ++ [(fresh, LowPassFilter)])
          (S (nodeCount s)) (started s)
          (masterOutGain s ++ [SetValueAtTime 1 now;
                               LinearRampToValueAtTime 0 (now + (1 # 10))])
          (timers s) (session s ++ [SessionPause]) (connectionError s).

Definition loadAudio (now : Q) (s : State) : State :=
  mkState loading (nextStartTime s) (outputNode s) (connections s)
          (nodeCount s) (started s)
          (masterOutGain s ++ [SetValueAtTime 0 now;
                               LinearRampToValueAtTime 1 (now + (1 # 10))])
          (timers s) (session s ++ [SessionPlay]) (connectionError s).

(** [stopAudio], under the same two conditions. *)
Definition stopAudio (now : Q) (s : State) : State :=
  mkState stopped 0 (outputNode s) (connections s)
          (nodeCount s) (started s)
          (masterOutGain s ++ [SetValueAtTime 1 now])
          (timers s) (session s ++ [SessionStop]) (connectionError s).

(** Signal flow: [feeds conns a b] when the output of [a] reaches [b]
    through the connections. *)
Inductive feeds (conns : list Connection) : AudioNode -> AudioNode -> Prop :=
| feeds_here (a : AudioNode) : feeds conns a a
| feeds_next (a b c : AudioNode) :
    In (a, b) conns -> feeds conns b c -> feeds conns a c.

(** The segments of a run of the handler over decoded segments, each with
    the device time of its arrival. *)
Fixpoint scheduleAll (segs : list (Q * AudioBuffer)) (s : State) : State :=
  match segs with
  | [] => s
  | (now, b) :: rest => scheduleAll rest (scheduleSegment now b s)
  end.

(** The clock is valid at [now]: not the sentinel, not behind the device. *)
Definition clockValid (now : Q) (s : State) : Prop :=
  ~ nextStartTime s == 0 /\ ~ nextStartTime s < now.

Fixpoint clockValidAll (segs : list (Q * AudioBuffer)) (s : State) : Prop :=
  match segs with
  | [] => True
  | (now, b) :: rest =>
      clockValid now s /\ clockValidAll rest (scheduleSegment now b s)
  end.

(** Back to back: every segment starts where its predecessor ends. *)
Fixpoint gapless (l : list Scheduled) : Prop :=
  match l with
  | x :: (y :: _) as rest =>
      when y = when x + duration (segment x) /\ gapless rest
  | _ => True
  end.

(** *** The other entry points of the scheduler *)

(** [handlePlayPause]; the reconnection it awaits when [connectionError] is
    set does not touch these fields. *)
Definition handlePlayPause (now : Q) (s : State) : State :=
  match playbackState s with
  | playing => pauseAudio now s
  | paused | stopped => loadAudio now s
  | loading => stopAudio now s
  end.

(** The [onerror] and [onclose] callbacks of the session. *)
Definition connectionLost (now : Q) (s : State) : State :=
  let s' := mkState (playbackState s) (nextStartTime s) (outputNode s)
                    (connections s) (nodeCount s) (started s)
                    (masterOutGain s) (timers s) (session s) true in
  stopAudio now s'.

(** A message with [setupComplete]. *)
Definition setupComplete (s : State) : State :=
  mkState (playbackState s) (nextStartTime s) (outputNode s)
          (connections s) (nodeCount s) (started s)
          (masterOutGain s) (timers s) (session s) false.

(** What happens to the scheduler.  [handleReset] pauses and loads again
    from a timer of 100 ms; a rejected [setWeightedPrompts] pauses. *)
Inductive Event : Set :=
| Chunk (now : Q) (data : list byte)
| LeadTimer
| PlayPause (now : Q)
| ResetPressed (now : Q)
| ResetTimer (now : Q)
| PromptsRejected (now : Q)
| ConnectionLost (now : Q)
| SetupComplete.

Definition step (e : Event) (s : State) : option State :=
  match e with
  | Chunk now data => onAudioChunk now data s
  | LeadTimer => Some (timerFires s)
  | PlayPause now => Some (handlePlayPause now s)
  | ResetPressed now => Some (pauseAudio now s)
  | ResetTimer now => Some (loadAudio now s)
  | PromptsRejected now => Some (pauseAudio now s)
  | ConnectionLost now => Some (connectionLost now s)
  | SetupComplete => Some (setupComplete s)
  end.

Fixpoint run (es : list Event) (s : State) : option State :=
  match es with
  | [] => Some s
  | e :: rest => s' <- step e s ;; run rest s'
  end.

(** Chunks only, each with the device time of its arrival. *)
Fixpoint onAudioChunks (chunks : list (Q * list byte)) (s : State)
  : option State :=
  match chunks with
  | [] => Some s
  | (now, data) :: rest => s' <- onAudioChunk now data s ;; onAudioChunks rest s'
  end.

(** Arrival times that do not decrease, from [t] on. *)
Fixpoint ascending (t : Q) (chunks : list (Q * list byte)) : Prop :=
  match chunks with
  | [] => True
  | (now, _) :: rest => t <= now /\ ascending now rest
  end.

Definition endOf (x : Scheduled) : Q := when x + duration (segment x).

(** No segment starts before its predecessor has ended. *)
Fixpoint nonOverlapping (l : list Scheduled) : Prop :=
  match l with
  | x :: (y :: _) as rest => endOf x <= when y /\ nonOverlapping rest
  | _ => True
  end.

(** Every started segment ends by the clock, or by [t] when the clock is
    the sentinel. *)
Definition covered (t : Q) (s : State) : Prop :=
  let bound := if Qeq_bool (nextStartTime s) 0 then t else nextStartTime s in
  nonOverlapping (started s)
  /\ Forall (fun x => endOf x <= bound) (started s).

(** While playback is paused or stopped the clock is the sentinel. *)
Definition idleClock (s : State) : Prop :=
  playbackState s = paused \/ playbackState s = stopped ->
  nextStartTime s = 0.

End Scheduler.

(** ** The effects chain of [src/index.tsx]

    The parameter set of [PromptDj] (its numeric and boolean [@state]
    fields, read and written by name), the handlers that change it, and the
    calls [updateFxChain] makes on the audio graph. *)

Module Fx.

Local Open Scope string_scope.

Inductive NumField : Set :=
| lowPassFreq | highPassFreq | reverbMix | delayTime | delayFeedback
| delayMix | distortionAmount | phaserRate | phaserMix | bitDepth
| sampleRateReduction | vinylCrackle | bpm | temperature | topK
| guidanceScale.

Inductive Flag : Set :=
| isLpfOn | isHpfOn | isReverbOn | isDelayOn | isDistortionOn | isPhaserOn
| isBitCrusherOn | isVinylSimOn | isKaossActive | isKaossHeld.

Definition NumField_eq_dec (a b : NumField) : {a = b} + {a <> b}.
Proof. decide equality. Defined.

Definition Flag_eq_dec (a b : Flag) : {a = b} + {a <> b}.
Proof. decide equality. Defined.

(** The [AudioParam]s that [updateFxChain] and the Kaoss handlers drive. *)
Inductive AudioParam : Set :=
| LowPassFrequency | HighPassFrequency
| BitCrusherBypassGain | DistortionBypassGain
| PhaserLFOFrequency | PhaserLfoGainGain | PhaserWetGain | PhaserBypassGain
| DelayNodeDelayTime | DelayFeedbackGainGain | DelayWetGain | DelayBypassGain
| ReverbWetGain | ReverbBypassGain | VinylNoiseGainGain.

(** A call on the audio graph. *)
Inductive FxCall : Set :=
| Ramp (param : AudioParam) (value endTime : Q)   (* linearRampToValueAtTime *)
| CancelScheduledValues (param : AudioParam) (time : Q)
| SetDistortionCurve (amount : Q)                 (* makeDistortionCurve(amount) *)
| ConnectBitCrusher
| DisconnectBitCrusher.

Record FxState : Set := mkFx {
  num : NumField -> Q;
  flag : Flag -> bool;
  kaossXY : Q * Q;
  activeKaossProgram : string;
  kaossLastTap : Q;
  applied : list FxCall          (* the calls made so far, in order *)
}.

Definition setNum (f : NumField) (v : Q) (s : FxState) : FxState :=
  mkFx (fun g => if NumField_eq_dec g f then v else num s g)
       (flag s) (kaossXY s) (activeKaossProgram s) (kaossLastTap s) (applied s).

Definition setFlag (f : Flag) (v : bool) (s : FxState) : FxState :=
  mkFx (num s) (fun g => if Flag_eq_dec g f then v else flag s g)
       (kaossXY s) (activeKaossProgram s) (kaossLastTap s) (applied s).

Definition setKaossXY (xy : Q * Q) (s : FxState) : FxState :=
  mkFx (num s) (flag s) xy (activeKaossProgram s) (kaossLastTap s) (applied s).

Definition setProgram (p : string) (s : FxState) : FxState :=
  mkFx (num s) (flag s) (kaossXY s) p (kaossLastTap s) (applied s).

Definition setLastTap (t : Q) (s : FxState) : FxState :=
  mkFx (num s) (flag s) (kaossXY s) (activeKaossProgram s) t (applied s).

Definition call (cs : list FxCall) (s : FxState) : FxState :=
  mkFx (num s) (flag s) (kaossXY s) (activeKaossProgram s) (kaossLastTap s)
       (applied s ++ cs).

(** The calls of [updateFxChain] at device time [time]. *)
Definition updateFxChainCalls (time : Q) (s : FxState) : list FxCall :=
  let rampTime := time + (2 # 100) in
  let on := flag s in
  let v := num s in
  [ Ramp LowPassFrequency (if on isLpfOn then v lowPassFreq else 22050) rampTime;
    Ramp HighPassFrequency (if on isHpfOn then v highPassFreq else 20) rampTime;
    Ramp BitCrusherBypassGain (if on isBitCrusherOn then 0 else 1) rampTime;
    (if on isBitCrusherOn then ConnectBitCrusher else DisconnectBitCrusher);
    SetDistortionCurve (v distortionAmount);
    Ramp DistortionBypassGain (if on isDistortionOn then 0 else 1) rampTime;
    Ramp PhaserLFOFrequency (v phaserRate) rampTime;
    Ramp PhaserLfoGainGain 2000 rampTime;
    Ramp PhaserWetGain (v phaserMix) rampTime;
    Ramp PhaserBypassGain (if on isPhaserOn then 1 - v phaserMix else 1) rampTime;
    Ramp DelayNodeDelayTime (v delayTime) rampTime;
    Ramp DelayFeedbackGainGain (v delayFeedback) rampTime;
    Ramp DelayWetGain (v delayMix) rampTime;
    Ramp DelayBypassGain (if on isDelayOn then 1 - v delayMix else 1) rampTime;
    Ramp ReverbWetGain (v reverbMix) rampTime;
    Ramp ReverbBypassGain (if on isReverbOn then 1 - v reverbMix else 1) rampTime;
    Ramp VinylNoiseGainGain (if on isVinylSimOn then v vinylCrackle else 0) rampTime ].

Definition updateFxChain (time : Q) (s : FxState) : FxState :=
  call (updateFxChainCalls time s) s.

(** The field initialisers of the class. *)
Definition initialNum (f : NumField) : Q :=
  match f with
  | lowPassFreq => 22050 | highPassFreq => 20 | reverbMix => 0
  | delayTime => 1 # 2 | delayFeedback => 3 # 10 | delayMix => 0
  | distortionAmount => 0 | phaserRate => 1 # 2 | phaserMix => 0
  | bitDepth => 8 | sampleRateReduction => 4 | vinylCrackle => 0
  | bpm => 120 | temperature => 3 # 4 | topK => 40 | guidanceScale => 7
  end.

Definition initialFlag (f : Flag) : bool :=
  match f with
  | isLpfOn | isHpfOn | isReverbOn | isDelayOn | isDistortionOn
  | isPhaserOn => true
  | isBitCrusherOn | isVinylSimOn | isKaossActive | isKaossHeld => false
  end.

(** The state after the constructor, which calls [updateFxChain] once. *)
Definition initialState (time : Q) : FxState :=
  updateFxChain time
    (mkFx initialNum initialFlag (1 # 2, 1 # 2) "LPF Sweep Delay" 0 []).

(** [handleControlChange]: the [switch] on the label of the event. *)
Definition handleControlChange (time : Q) (label : string) (value : Q)
  (s : FxState) : FxState :=
  let fx (f : NumField) := updateFxChain time (setNum f value s) in
  (* setMusicGenerationConfig goes to the session, not to the audio graph *)
  let config (f : NumField) := setNum f value s in
  if label =? "LPF" then fx lowPassFreq
  else if label =? "HPF" then fx highPassFreq
  else if label =? "Distort" then fx distortionAmount
  else if label =? "Phaser Rate" then fx phaserRate
  else if label =? "Phaser Mix" then fx phaserMix
  else if label =? "Delay Time" then fx delayTime
  else if label =? "Delay Fbk" then fx delayFeedback
  else if label =? "Delay Mix" then fx delayMix
  else if label =? "Reverb" then fx reverbMix
  else if label =? "Bits" then fx bitDepth
  else if label =? "Rate" then fx sampleRateReduction
  else if label =? "Crackle" then fx vinylCrackle
  else if label =? "BPM" then config bpm
  else if label =? "Temp" then config temperature
  else if label =? "Diversity" then config topK
  else if label =? "Guidance" then config guidanceScale
  else updateFxChain time s.

Definition toggle (f : Flag) (s : FxState) : FxState :=
  setFlag f (negb (flag s f)) s.

Definition handleFxToggle (time : Q) (effect : string) (s : FxState)
  : FxState :=
  let s' :=
    if effect =? "LPF" then toggle isLpfOn s
    else if effect =? "HPF" then toggle isHpfOn s
    else if effect =? "Distortion" then toggle isDistortionOn s
    else if effect =? "Phaser" then toggle isPhaserOn s
    else if effect =? "Delay" then toggle isDelayOn s
    else if effect =? "Reverb" then toggle isReverbOn s
    else if effect =? "Bit Crush" then toggle isBitCrusherOn s
    else if effect =? "Vinyl Sim" then toggle isVinylSimOn s
    else s in
  updateFxChain time s'.

Definition resetFxToNeutral (time : Q) (s : FxState) : FxState :=
  updateFxChain time
    (setNum highPassFreq 20
       (setNum lowPassFreq 22050 (setNum delayMix 0 (setNum reverbMix 0 s)))).

Section Kaoss.

(** [Math.pow] at a fractional exponent has no rational value; the Kaoss
    programs are given the function. *)
Variable Math_pow : Q -> Q -> Q.

Definition updateKaossFx (time : Q) (s : FxState) : FxState :=
  let '(x, y) := kaossXY s in
  let invertedY := 1 - y in
  let s' :=
    if activeKaossProgram s =? "LPF Sweep Delay" then
      setNum reverbMix 0
        (setFlag isReverbOn false
           (setFlag isHpfOn false
              (setFlag isDelayOn true
                 (setFlag isLpfOn true
                    (setNum delayMix ((2 # 10) + invertedY * (7 # 10))
                       (setNum delayFeedback (invertedY * (85 # 100))
                          (setNum lowPassFreq
                             (100 * Math_pow (18000 / 100) x) s)))))))
    else if activeKaossProgram s =? "HPF + Reverb Wash" then
      setNum delayMix 0
        (setFlag isDelayOn false
           (setFlag isLpfOn false
              (setFlag isReverbOn true
                 (setFlag isHpfOn true
                    (setNum reverbMix ((15 # 100) + invertedY * (65 # 100))
                       (setNum highPassFreq
                          (60 * Math_pow (2000 / 60) x) s))))))
    else s in
  updateFxChain time s'.

(** [updateKaossPosition]; [rx] and [ry] are the pointer offsets divided by
    the width and height of the pad. *)
Definition updateKaossPosition (time rx ry : Q) (s : FxState) : FxState :=
  let x := Math_max 0 (Math_min 1 rx) in
  let y := Math_max 0 (Math_min 1 ry) in
  updateKaossFx time (setKaossXY (x, y) s).

(** [dateNow] is [Date.now()], in milliseconds. *)
Definition handleKaossPointerDown (time dateNow rx ry : Q) (s : FxState)
  : FxState :=
  let s1 := setFlag isKaossActive true s in
  let s2 := if Qlt_bool (dateNow - kaossLastTap s1) 300
            then toggle isKaossHeld s1 else s1 in
  let s3 := setLastTap dateNow s2 in
  let s4 := call [CancelScheduledValues ReverbWetGain time;
                  CancelScheduledValues DelayWetGain time] s3 in
  updateKaossPosition time rx ry (updateFxChain time s4).

Definition handleKaossPointerMove (time rx ry : Q) (s : FxState) : FxState :=
  if flag s isKaossActive then updateKaossPosition time rx ry s else s.

Definition handleKaossPointerUp (time : Q) (s : FxState) : FxState :=
  if flag s isKaossHeld then s
  else
    let releaseTime := 25 # 100 in
    call [CancelScheduledValues ReverbWetGain time;
          Ramp ReverbWetGain 0 (time + releaseTime);
          CancelScheduledValues DelayWetGain time;
          Ramp DelayWetGain 0 (time + releaseTime)]
         (setFlag isKaossActive false s).

(** The callback of the timer set by [handleKaossPointerUp]. *)
Definition kaossReleaseTimer (time : Q) (s : FxState) : FxState :=
  if flag s isKaossActive then s else resetFxToNeutral time s.

Definition handleKaossProgramChange (time : Q) (value : string) (s : FxState)
  : FxState :=
  let s' := setProgram value s in
  if flag s' isKaossActive then updateKaossFx time s' else s'.

(** What can happen to the parameter set. *)
Inductive Event : Set :=
| ControlChange (time : Q) (label : string) (value : Q)
| FxToggle (time : Q) (effect : string)
| KaossPointerDown (time dateNow rx ry : Q)
| KaossPointerMove (time rx ry : Q)
| KaossPointerUp (time : Q)
| KaossReleaseTimer (time : Q)
| KaossProgramChange (time : Q) (value : string)
| HoldButton.

Definition step (e : Event) (s : FxState) : FxState :=
  match e with
  | ControlChange time label value => handleControlChange time label value s
  | FxToggle time effect => handleFxToggle time effect s
  | KaossPointerDown time dateNow rx ry =>
      handleKaossPointerDown time dateNow rx ry s
  | KaossPointerMove time rx ry => handleKaossPointerMove time rx ry s
  | KaossPointerUp time => handleKaossPointerUp time s
  | KaossReleaseTimer time => kaossReleaseTimer time s
  | KaossProgramChange time value => handleKaossProgramChange time value s
  | HoldButton => toggle isKaossHeld s
  end.

Definition run (es : list Event) (s : FxState) : FxState :=
  fold_left (fun st e => step e st) es s.

End Kaoss.

(** The values [updateFxChain] has handed to the feedback gain node. *)
Definition feedbackApplied (s : FxState) : list Q :=
  flat_map (fun c => match c with
                     | Ramp DelayFeedbackGainGain v _ => [v]
                     | _ => []
                     end) (applied s).

(** A control change that carries a delay feedback carries one below 1. *)
Definition feedbackBelowOne (e : Event) : Prop :=
  match e with
  | ControlChange _ label value => label = "Delay Fbk" -> (value < 1)%Q
  | _ => True
  end.



(** The feedback loop is stable: the parameter and every value handed to
    the feedback gain node are below 1 (the pad's [y] is not negative). *)
Definition Stable (s : FxState) : Prop :=
  (num s delayFeedback < 1)%Q
  /\ (0 <= snd (kaossXY s))%Q
  /\ Forall (fun v => (v < 1)%Q) (feedbackApplied s).


Definition inUnitSquare (xy : Q * Q) : Prop :=
  (0 <= fst xy <= 1)%Q /\ (0 <= snd xy <= 1)%Q.

(** *** [bitCrusherProcess]

    [bitDepth] is the integer the "Bits" slider (step 1) delivers, so that
    [Math.pow(0.5, bitDepth)] is a rational; an input block is the list of
    its frames (left, right); [last] is [bitCrusherLastSample]. *)

Local Open Scope Q_scope.

Definition quantize (step sample : Q) : Q :=
  step * inject_Z (Math_floor (sample / step + (1 # 2))).

(** [i % srr === 0]; the remainder by zero is [NaN]. *)
Definition holdUpdates (i : nat) (srr : Z) : bool :=
  if (srr =? 0)%Z then false else (Z.rem (Z.of_nat i) srr =? 0)%Z.

(** Both samples of a frame, quantised. *)
Definition crushFrame (step : Q) (fr : Q * Q) : Q * Q :=
  (quantize step (fst fr), quantize step (snd fr)).

Fixpoint bitCrusherLoop (step : Q) (srr : Z) (i : nat) (last : Q * Q)
  (input : list (Q * Q)) : (Q * Q) * list (Q * Q) :=
  match input with
  | [] => (last, [])
  | frame :: rest =>
      let last' := if holdUpdates i srr then frame else last in
      let out := (quantize step (fst last'), quantize step (snd last')) in
      let '(final, outs) := bitCrusherLoop step srr (S i) last' rest in
      (final, out :: outs)
  end.

Definition bitCrusherProcess (bitDepth : Z) (sampleRateReduction : Q)
  (last : Q * Q) (input : list (Q * Q)) : (Q * Q) * list (Q * Q) :=
  let step := Qpower (1 # 2) bitDepth in
  let srr := Math_round sampleRateReduction in
  bitCrusherLoop step srr 0 last input.

End Fx.

(** ** Helpers and controls of [src/index.tsx] *)

Module Controls.
Import Utils.

Local Open Scope string_scope.

(** *** [throttle]

    The closure keeps [lastCall]; a call at [Date.now() = now] runs [func]
    when at least [delay] has passed since the last call that ran. *)
Definition throttleCall (delay now lastCall : Q) : bool * Q :=
  let timeSinceLastCall := (now - lastCall)%Q in
  if Qle_bool delay timeSinceLastCall then (true, now) else (false, lastCall).

(** The times at which [func] runs, for calls at the times [calls]. *)
Fixpoint throttleRun (delay : Q) (calls : list Q) (lastCall : Q) : list Q :=
  match calls with
  | [] => []
  | now :: rest =>
      let '(ran, lastCall') := throttleCall delay now lastCall in
      if ran then now :: throttleRun delay rest lastCall'
      else throttleRun delay rest lastCall'
  end.

(** Each time is at least [delay] after the one before, the first after
    [last]. *)
Fixpoint spaced (delay last : Q) (l : list Q) : Prop :=
  match l with
  | [] => True
  | t :: rest => (delay <= t - last)%Q /\ spaced delay t rest
  end.

(** *** [getUnusedRandomColor]; [r] is the value of [Math.random()]. *)

Definition COLORS : list string :=
  [ "#be00ff"; "#0094ff"; "#ff00a0"; "#00f5d4";
    "#ffdd28"; "#3dffab"; "#ff3e3e"; "#ff8928" ].

Definition includes (l : list string) (c : string) : bool :=
  existsb (String.eqb c) l.

Definition randomIndex (r : Q) (n : nat) : nat :=
  Z.to_nat (Math_floor (r * inject_Z (Z.of_nat n))).

Definition getUnusedRandomColor (r : Q) (usedColors : list string)
  : option string :=
  let availableColors := filter (fun c => negb (includes usedColors c)) COLORS in
  if Nat.eqb (List.length availableColors) 0
  then nth_error COLORS (randomIndex r (List.length COLORS))
  else nth_error availableColors (randomIndex r (List.length availableColors)).

(** *** [WeightSlider] *)

Definition handleWheel (deltaY value : Q) : Q :=
  let value1 := (value + deltaY * - (5 # 1000))%Q in
  Math_max 0 (Math_min 2 value1).

(** [containerBounds] is [null] or the top and the height of the track.  A
    track of height 0 gives no number in the source; here the quotient is
    then 0. *)
Definition updateValueFromPosition (containerBounds : option (Q * Q))
  (clientY value : Q) : Q :=
  match containerBounds with
  | None => value
  | Some (top, trackHeight) =>
      let relativeY := (clientY - top)%Q in
      let normalizedValue :=
        (1 - Math_max 0 (Math_min trackHeight relativeY) / trackHeight)%Q in
      (normalizedValue * 2)%Q
  end.

(** *** [getAverageFrequency] *)

(** The loop [for (i = start; i < end; i++) sum += data[i]], [n] bins to
    go; a bin past the end of [data] is [undefined] and the sum is then not
    a number. *)
Fixpoint sumBins (data : list byte) (i n : nat) (sum : Q) : option Q :=
  match n with
  | O => Some sum
  | S n' =>
      b <- nth_error data i ;;
      sumBins data (S i) n' (sum + inject_Z (Z_of_byte b))%Q
  end.

(** [(sum / (end - start)) / 255]; with [end = start] the quotient is 0/0. *)
Definition getAverageFrequency (data : list byte) (start end_ : nat)
  : option Q :=
  sum <- sumBins data start (end_ - start) 0%Q ;;
  if Nat.eqb end_ start then None
  else Some (sum / (inject_Z (Z.of_nat end_) - inject_Z (Z.of_nat start))
               / 255)%Q.

End Controls.

(** * Properties *)

(** ** Arithmetic of the embedding *)

Section Arithmetic.

Lemma Math_max_le_l (a b : Q) : a <= Math_max a b.
Proof.
  unfold Math_max. destruct (Qle_bool a b) eqn:E.
  - now apply Qle_bool_iff.
  - apply Qle_refl.
Qed.

Lemma Math_max_cases (a b : Q) :
  (a <= b /\ Math_max a b = b) \/ (b < a /\ Math_max a b = a).
Proof.
  unfold Math_max. destruct (Qle_bool a b) eqn:E.
  - left. split; [now apply Qle_bool_iff | reflexivity].
  - right. split; [| reflexivity].
    apply Qnot_le_lt. intro H. apply Qle_bool_iff in H. congruence.
Qed.

Lemma Math_min_cases (a b : Q) :
  (a <= b /\ Math_min a b = a) \/ (b < a /\ Math_min a b = b).
Proof.
  unfold Math_min. destruct (Qle_bool a b) eqn:E.
  - left. split; [now apply Qle_bool_iff | reflexivity].
  - right. split; [| reflexivity].
    apply Qnot_le_lt. intro H. apply Qle_bool_iff in H. congruence.
Qed.

(** [Math.floor] of a quotient of two naturals is their integer quotient. *)
Lemma floor_div_nat (a b : nat) :
  Z.to_nat (Math_floor (inject_Z (Z.of_nat a) / inject_Z (Z.of_nat b)))
  = (a / b)%nat.
Proof.
  unfold Math_floor. rewrite <- Zdiv_Qdiv, <- Nat2Z.inj_div.
  apply Nat2Z.id.
Qed.

Lemma inject_Z_le (a b : Z) : (a <= b)%Z -> inject_Z a <= inject_Z b.
Proof. intro H. now rewrite <- Zle_Qle. Qed.

Lemma inject_Z_lt (a b : Z) : (a < b)%Z -> inject_Z a < inject_Z b.
Proof. intro H. now rewrite <- Zlt_Qlt. Qed.

Lemma inject_Z_le_inv (a b : Z) : inject_Z a <= inject_Z b -> (a <= b)%Z.
Proof. intro H. now rewrite Zle_Qle. Qed.

Lemma inject_Z_lt_inv (a b : Z) : inject_Z a < inject_Z b -> (a < b)%Z.
Proof. intro H. now rewrite Zlt_Qlt. Qed.

End Arithmetic.

(** ** The PCM codec *)

Section Codec.
Import Utils.

(** The number stored is within one of the number given, on its side
    towards zero. *)
Lemma truncate_nonneg (q : Q) :
  0 <= q ->
  truncate q = Qfloor q /\ inject_Z (truncate q) <= q < inject_Z (truncate q) + 1.
Proof.
  intro H. unfold truncate.
  apply Qle_bool_iff in H. rewrite H.
  split; [reflexivity |]. split; [apply Qfloor_le |].
  pose proof (Qlt_floor q) as L. rewrite inject_Z_plus in L. exact L.
Qed.

Lemma truncate_neg (q : Q) :
  q < 0 ->
  truncate q = Qceiling q /\ inject_Z (truncate q) - 1 < q <= inject_Z (truncate q).
Proof.
  intro H. unfold truncate.
  destruct (Qle_bool 0 q) eqn:E.
  - apply Qle_bool_iff in E. lra.
  - split; [reflexivity |]. fold (Qceiling q). split; [| apply Qle_ceiling].
    pose proof (Qceiling_lt q) as L.
    unfold Z.sub in L. rewrite inject_Z_plus in L. simpl in L.
    unfold Qminus. exact L.
Qed.

Lemma truncate_range (q : Q) (lo hi : Z) :
  (lo <= 0 <= hi)%Z -> inject_Z lo <= q <= inject_Z hi ->
  (lo <= truncate q <= hi)%Z.
Proof.
  intros [Hlo Hhi] [H1 H2].
  destruct (Qlt_le_dec q 0) as [N | P].
  - destruct (truncate_neg q N) as [_ [A B]].
    assert (inject_Z lo <= inject_Z (truncate q)) as L1 by lra.
    assert (inject_Z (truncate q) < inject_Z 1) as L2
      by (change (inject_Z 1) with 1; lra).
    apply inject_Z_le_inv in L1. apply inject_Z_lt_inv in L2. lia.
  - destruct (truncate_nonneg q P) as [_ [A B]].
    assert (inject_Z (truncate q) <= inject_Z hi) as L1 by lra.
    assert (inject_Z (-1) < inject_Z (truncate q)) as L2
      by (change (inject_Z (-1)) with (-1); lra).
    apply inject_Z_le_inv in L1. apply inject_Z_lt_inv in L2. lia.
Qed.

Lemma truncate_error (q : Q) :
  Qabs (q - inject_Z (truncate q)) < 1 /\ Qabs (inject_Z (truncate q)) <= Qabs q.
Proof.
  destruct (Qlt_le_dec q 0) as [N | P].
  - destruct (truncate_neg q N) as [_ [A B]].
    assert (inject_Z (truncate q) <= 0) as T.
    { assert (inject_Z (truncate q) < inject_Z 1) as L
        by (change (inject_Z 1) with 1; lra).
      apply inject_Z_lt_inv in L.
      change 0 with (inject_Z 0). apply inject_Z_le. lia. }
    split.
    + apply Qabs_Qlt_condition. lra.
    + rewrite (Qabs_neg q) by lra. rewrite Qabs_neg by lra. lra.
  - destruct (truncate_nonneg q P) as [_ [A B]].
    assert (0 <= inject_Z (truncate q)) as T.
    { assert (inject_Z (-1) < inject_Z (truncate q)) as L
        by (change (inject_Z (-1)) with (-1); lra).
      apply inject_Z_lt_inv in L.
      change 0 with (inject_Z 0). apply inject_Z_le. lia. }
    split.
    + apply Qabs_Qlt_condition. lra.
    + rewrite (Qabs_pos q) by lra. rewrite Qabs_pos by lra. lra.
Qed.

Lemma wrapInt16_id (n : Z) : (-32768 <= n <= 32767)%Z -> wrapInt16 n = n.
Proof.
  intro H. unfold wrapInt16.
  destruct (Z_lt_le_dec n 0) as [N | P].
  - replace (n mod 65536)%Z with (n + 65536)%Z.
    + destruct (32768 <=? n + 65536)%Z eqn:E; [lia |].
      apply Z.leb_gt in E. lia.
    + apply Z.mod_unique with (q := (-1)%Z); lia.
  - rewrite Z.mod_small by lia.
    destruct (32768 <=? n)%Z eqn:E; [| reflexivity].
    apply Z.leb_le in E. lia.
Qed.

Lemma clampSample_range (s : Q) : -32768 <= clampSample s <= 32767.
Proof.
  unfold clampSample.
  destruct (Math_min_cases 32767 (s * 32768)) as [[A ->] | [A ->]];
    destruct (Math_max_cases (-32768) 32767) as [[B E] | [B E]];
    try (destruct (Math_max_cases (-32768) (s * 32768)) as [[C ->] | [C ->]]);
    try rewrite E; lra.
Qed.

Lemma int16OfSample_truncate (s : Q) :
  int16OfSample s = truncate (clampSample s)
  /\ (-32768 <= int16OfSample s <= 32767)%Z.
Proof.
  assert ((-32768 <= truncate (clampSample s) <= 32767)%Z) as R.
  { apply truncate_range; [lia |]. apply clampSample_range. }
  unfold int16OfSample, toInt16. rewrite wrapInt16_id by exact R.
  split; [reflexivity | exact R].
Qed.

End Codec.

Section CodecBytes.
Import Utils.

Lemma Z_of_byte_of_Z (z : Z) : Z_of_byte (byte_of_Z z) = (z mod 256)%Z.
Proof.
  unfold Z_of_byte, byte_of_Z.
  assert (0 <= z mod 256 < 256)%Z as R by (apply Z.mod_pos_bound; lia).
  destruct (Byte.of_N (Z.to_N (z mod 256))) as [b |] eqn:E.
  - apply Byte.to_of_N in E. rewrite E. apply Z2N.id. lia.
  - apply Byte.of_N_None_iff in E. lia.
Qed.

Lemma Z_of_byte_range (b : byte) : (0 <= Z_of_byte b < 256)%Z.
Proof.
  unfold Z_of_byte. pose proof (Byte.to_N_bounded b). lia.
Qed.

Lemma wrapInt16_mod (v : Z) :
  (-32768 <= v <= 32767)%Z -> wrapInt16 (v mod 65536) = v.
Proof.
  intro H. rewrite <- (wrapInt16_id v H) at 2.
  unfold wrapInt16. now rewrite Z.mod_mod by lia.
Qed.

(** Reading back the two bytes of a stored element. *)
Lemma getInt16_int16Bytes (v : Z) (rest : list byte) :
  (-32768 <= v <= 32767)%Z -> getInt16 (int16Bytes v ++ rest) 0 = Some v.
Proof.
  intro H. unfold getInt16, int16Bytes. cbn [app nth_error bind].
  rewrite !Z_of_byte_of_Z.
  assert (0 <= v mod 65536 < 65536)%Z as R by (apply Z.mod_pos_bound; lia).
  set (u := (v mod 65536)%Z) in *.
  rewrite Z.mod_mod by lia.
  rewrite (Z.mod_small (u / 256) 256)
    by (split; [apply Z.div_pos; lia | apply Z.div_lt_upper_bound; lia]).
  replace (u mod 256 + 256 * (u / 256))%Z with u
    by (rewrite (Z.div_mod u 256) at 1; lia).
  unfold u. now rewrite wrapInt16_mod.
Qed.

Lemma getInt16_skip (a b : byte) (view : list byte) (k : nat) :
  getInt16 (a :: b :: view) (S (S k)) = getInt16 view k.
Proof. reflexivity. Qed.

Lemma getInt16_blob (data : list Q) :
  forall (i : nat) (s : Q),
    nth_error data i = Some s ->
    getInt16 (createBlobFromFloat32 data) (2 * i) = Some (int16OfSample s).
Proof.
  induction data as [| x data IH]; intros [| i] s H; try discriminate.
  - injection H as ->. unfold createBlobFromFloat32. simpl flat_map.
    apply getInt16_int16Bytes. apply int16OfSample_truncate.
  - replace (2 * S i)%nat with (S (S (2 * i))) by lia.
    unfold createBlobFromFloat32. simpl flat_map.
    unfold int16Bytes at 1. simpl app.
    rewrite getInt16_skip. apply IH. exact H.
Qed.

Lemma createBlobFromFloat32_length (data : list Q) :
  List.length (createBlobFromFloat32 data) = (2 * List.length data)%nat.
Proof.
  unfold createBlobFromFloat32, int16Array.
  induction data as [| x data IH]; [reflexivity |].
  simpl. simpl in IH. rewrite IH. lia.
Qed.

Lemma getInt16_in_range (view : list byte) (idx : nat) :
  (idx + 2 <= List.length view)%nat -> exists v, getInt16 view idx = Some v.
Proof.
  intro H. unfold getInt16.
  destruct (nth_error view idx) as [lo |] eqn:E1.
  - destruct (nth_error view (S idx)) as [hi |] eqn:E2.
    + simpl. eexists. reflexivity.
    + apply nth_error_None in E2. lia.
  - apply nth_error_None in E1. lia.
Qed.

Lemma getInt16_firstn (view : list byte) (m idx : nat) :
  (idx + 2 <= m)%nat -> getInt16 (firstn m view) idx = getInt16 view idx.
Proof.
  intro H. unfold getInt16. rewrite !nth_error_firstn.
  destruct (Nat.ltb_spec idx m); [| lia].
  destruct (Nat.ltb_spec (S idx) m); [| lia].
  reflexivity.
Qed.

End CodecBytes.

(** ** [decodeAudioData] reads whole frames only *)

Section Decode.
Import Utils.

Lemma numSamplesOf_div (len numChannels : nat) :
  (0 < numChannels)%nat ->
  numSamplesOf len numChannels = (len / (2 * numChannels))%nat.
Proof.
  intro H. unfold numSamplesOf.
  rewrite <- floor_div_nat. f_equal. apply Qfloor_comp.
  rewrite Nat2Z.inj_mul, inject_Z_mult.
  change (inject_Z (Z.of_nat 2)) with 2.
  assert (~ inject_Z (Z.of_nat numChannels) == 0) as NZ.
  { change 0 with (inject_Z 0). rewrite inject_Z_injective. lia. }
  field. exact NZ.
Qed.

(** The reads of one channel succeed when its last sample fits. *)
Lemma fillChannel_spec (view : list byte) (numChannels : nat) :
  forall (n idx : nat),
    (n = 0 \/ idx + (n - 1) * (numChannels * 2) + 2 <= List.length view)%nat ->
    exists l,
      fillChannel view numChannels idx n = Some l
      /\ List.length l = n
      /\ forall i, (i < n)%nat ->
           exists v, getInt16 view (idx + i * (numChannels * 2)) = Some v
                     /\ nth_error l i = Some (inject_Z v / 32768).
Proof.
  set (k := (numChannels * 2)%nat).
  induction n as [| n IH]; intros idx H.
  - exists []. split; [reflexivity | split; [reflexivity |]].
    intros i Hi. lia.
  - destruct H as [H | H]; [discriminate |].
    destruct (getInt16_in_range view idx) as [v Hv].
    { simpl in H. lia. }
    destruct (IH (idx + k)%nat) as [l [Hl [Hlen Hnth]]].
    { destruct n as [| m]; [now left | right].
      simpl in H. simpl. rewrite Nat.sub_0_r in *. lia. }
    exists (inject_Z v / 32768 :: l).
    cbn [fillChannel]. fold k. rewrite Hv. cbn [bind]. rewrite Hl. cbn [bind].
    split; [reflexivity | split; [simpl; now rewrite Hlen |]].
    intros [| i] Hi.
    + exists v. simpl. rewrite Nat.add_0_r. now split.
    + destruct (Hnth i) as [w [Hw1 Hw2]]; [lia |].
      exists w. split; [| exact Hw2].
      replace (idx + S i * k)%nat with (idx + k + i * k)%nat by (simpl; lia).
      exact Hw1.
Qed.

Lemma fillChannel_firstn (view : list byte) (numChannels m : nat) :
  forall (n idx : nat),
    (n = 0 \/ idx + (n - 1) * (numChannels * 2) + 2 <= m)%nat ->
    fillChannel (firstn m view) numChannels idx n
    = fillChannel view numChannels idx n.
Proof.
  set (k := (numChannels * 2)%nat).
  induction n as [| n IH]; intros idx H; [reflexivity |].
  destruct H as [H | H]; [discriminate |].
  simpl. fold k. rewrite getInt16_firstn by (simpl in H; lia).
  rewrite IH; [reflexivity |].
  destruct n as [| n']; [now left | right].
  simpl in H. simpl. rewrite Nat.sub_0_r in *. lia.
Qed.

(** The last read of channel [c] ends inside the [n] whole frames. *)
Lemma last_read_fits (numChannels n c : nat) :
  (c < numChannels)%nat -> (0 < n)%nat ->
  (c * 2 + (n - 1) * (numChannels * 2) + 2 <= 2 * numChannels * n)%nat.
Proof.
  intros Hc Hn. destruct n as [| m]; [lia |].
  simpl Nat.sub. rewrite Nat.sub_0_r. nia.
Qed.

Lemma fillChannels_spec (view : list byte) (numChannels n : nat) :
  (0 < n)%nat -> (2 * numChannels * n <= List.length view)%nat ->
  forall (k c : nat),
    (c + k <= numChannels)%nat ->
    exists chans,
      fillChannels view numChannels n c k = Some chans
      /\ List.length chans = k
      /\ forall j, (j < k)%nat ->
           exists ch,
             nth_error chans j = Some ch
             /\ List.length ch = n
             /\ forall i, (i < n)%nat ->
                  exists v,
                    getInt16 view (2 * (i * numChannels + (c + j))) = Some v
                    /\ nth_error ch i = Some (inject_Z v / 32768).
Proof.
  intros Hn Hlen.
  induction k as [| k IH]; intros c Hc.
  - exists []. split; [reflexivity | split; [reflexivity |]].
    intros j Hj. lia.
  - destruct (fillChannel_spec view numChannels n (c * 2)) as [ch [E [L N]]].
    { right. pose proof (last_read_fits numChannels n c). lia. }
    destruct (IH (S c)) as [chans [E' [L' N']]]; [lia |].
    exists (ch :: chans). cbn [fillChannels]. rewrite E. cbn [bind].
    rewrite E'. cbn [bind].
    split; [reflexivity | split; [simpl; now rewrite L' |]].
    intros [| j] Hj.
    + exists ch. split; [reflexivity | split; [exact L |]].
      intros i Hi. destruct (N i Hi) as [v [V1 V2]].
      exists v. split; [| exact V2].
      replace (2 * (i * numChannels + (c + 0)))%nat
        with (c * 2 + i * (numChannels * 2))%nat by lia.
      exact V1.
    + destruct (N' j) as [ch' [C1 [C2 C3]]]; [lia |].
      exists ch'. split; [exact C1 | split; [exact C2 |]].
      intros i Hi. destruct (C3 i Hi) as [v [V1 V2]].
      exists v. split; [| exact V2].
      replace (c + S j)%nat with (S c + j)%nat by lia. exact V1.
Qed.

Lemma fillChannels_firstn (view : list byte) (numChannels n m : nat) :
  (0 < n)%nat -> (2 * numChannels * n <= m)%nat ->
  forall (k c : nat),
    (c + k <= numChannels)%nat ->
    fillChannels (firstn m view) numChannels n c k
    = fillChannels view numChannels n c k.
Proof.
  intros Hn Hm.
  induction k as [| k IH]; intros c Hc; [reflexivity |].
  simpl. rewrite fillChannel_firstn.
  - rewrite IH by lia. reflexivity.
  - right. pose proof (last_read_fits numChannels n c). lia.
Qed.

(** What [decodeAudioData] returns, for any data and at least one channel. *)
Lemma decodeAudioData_spec (data : list byte) (rate : Q) (numChannels : nat) :
  (0 < numChannels)%nat ->
  let n := (List.length data / (2 * numChannels))%nat in
  exists buf,
    decodeAudioData data rate numChannels = Some buf
    /\ numberOfChannels buf = numChannels
    /\ sampleRate buf = rate
    /\ bufferLength buf = (if Nat.eqb n 0 then 1 else n)%nat
    /\ List.length (channels buf) = numChannels
    /\ (n = 0%nat -> channels buf = repeat [0] numChannels)
    /\ forall c, (c < numChannels)%nat ->
         exists ch,
           nth_error (channels buf) c = Some ch
           /\ List.length ch = bufferLength buf
           /\ forall i, (i < n)%nat ->
                exists v,
                  getInt16 data (2 * (i * numChannels + c)) = Some v
                  /\ nth_error ch i = Some (inject_Z v / 32768).
Proof.
  intros Hc n. unfold decodeAudioData.
  rewrite numSamplesOf_div by exact Hc. fold n.
  destruct (Nat.eqb_spec n 0) as [Z | NZ].
  - unfold createBuffer. destruct numChannels as [| m]; [lia |].
    eexists. split; [reflexivity |]. cbn [numberOfChannels sampleRate
      bufferLength channels].
    refine (conj eq_refl (conj eq_refl (conj eq_refl (conj _ (conj _ _))))).
    + apply repeat_length.
    + reflexivity.
    + intros c Hlt. exists [0]. split; [| split; [reflexivity |]].
      * apply nth_error_repeat. exact Hlt.
      * intros i Hi. lia.
  - assert (2 * numChannels * n <= List.length data)%nat as Hfit.
    { unfold n. pose proof (Nat.Div0.mul_div_le (List.length data)
                              (2 * numChannels)). lia. }
    destruct (fillChannels_spec data numChannels n) with (k := numChannels) (c := 0%nat)
      as [chans [E [L N]]]; [lia | exact Hfit | lia |].
    unfold createBuffer. destruct numChannels as [| m] eqn:Em; [lia |].
    rewrite <- Em in *. cbn [bind]. rewrite E. cbn [bind].
    eexists. split; [reflexivity |]. cbn [numberOfChannels sampleRate
      bufferLength channels].
    refine (conj eq_refl (conj eq_refl (conj _ (conj L (conj _ _))))).
    + destruct (Nat.eqb_spec n 0); [contradiction | reflexivity].
    + intro Z. contradiction.
    + intros c Hlt. destruct (N c Hlt) as [ch [C1 [C2 C3]]].
      exists ch. split; [exact C1 | split; [| exact C3]].
      rewrite C2. destruct (Nat.eqb_spec n 0); [contradiction | reflexivity].
Qed.

End Decode.

(** ** Round trip and truncation of the codec *)

Section RoundTrip.
Import Utils.

Lemma decodeAudioData_firstn (data : list byte) (rate : Q) (numChannels : nat) :
  (0 < numChannels)%nat ->
  let n := (List.length data / (2 * numChannels))%nat in
  decodeAudioData (firstn (2 * numChannels * n) data) rate numChannels
  = decodeAudioData data rate numChannels.
Proof.
  intros Hc n.
  assert (2 * numChannels * n <= List.length data)%nat as Hfit.
  { unfold n. pose proof (Nat.Div0.mul_div_le (List.length data)
                            (2 * numChannels)). lia. }
  unfold decodeAudioData.
  rewrite !numSamplesOf_div by exact Hc.
  rewrite length_firstn, Nat.min_l by exact Hfit.
  rewrite Nat.mul_comm, Nat.div_mul by lia. fold n.
  destruct (Nat.eqb_spec n 0) as [Z | NZ]; [reflexivity |].
  rewrite fillChannels_firstn; [reflexivity | lia | lia | lia].
Qed.

Lemma Forall2_pointwise {A B : Type} (R : A -> B -> Prop) :
  forall (l1 : list A) (l2 : list B),
    List.length l1 = List.length l2 ->
    (forall i x, nth_error l1 i = Some x ->
                 exists y, nth_error l2 i = Some y /\ R x y) ->
    Forall2 R l1 l2.
Proof.
  induction l1 as [| a l1 IH]; intros [| b l2] Hlen H; try discriminate.
  - constructor.
  - constructor.
    + destruct (H 0%nat a eq_refl) as [y [E r]]. injection E as <-. exact r.
    + apply IH; [simpl in Hlen; lia |].
      intros i x Hx. apply (H (S i) x Hx).
Qed.

(** One sample through the encoder and the decoder. *)
Lemma roundtrip_sample (s : Q) :
  -1 <= s <= 1 ->
  Qabs (inject_Z (int16OfSample s) / 32768 - s) <= 1 # 32768.
Proof.
  intros [Hlo Hhi].
  destruct (int16OfSample_truncate s) as [-> _].
  apply Qabs_Qle_condition.
  unfold clampSample.
  destruct (Math_min_cases 32767 (s * 32768)) as [[A ->] | [A ->]].
  - (* the product exceeds 32767 and is clamped *)
    change (truncate (Math_max (-32768) 32767)) with 32767%Z.
    change (inject_Z 32767 / 32768) with (32767 # 32768).
    split; lra.
  - destruct (Math_max_cases (-32768) (s * 32768)) as [[B ->] | [B ->]];
      [| lra].
    destruct (truncate_error (s * 32768)) as [E _].
    apply Qabs_Qlt_condition in E.
    set (t := inject_Z (truncate (s * 32768))) in *.
    assert (t / 32768 == t * (1 # 32768)) as -> by (field).
    split; lra.
Qed.

End RoundTrip.

Section CodecClaims.
Import Utils.

Example int16OfSample_one : int16OfSample 1 = 32767%Z.
Proof. reflexivity. Qed.

Example int16OfSample_minus_one : int16OfSample (-1) = (-32768)%Z.
Proof. reflexivity. Qed.

Example int16OfSample_fraction : int16OfSample (- (3 # 131072)) = 0%Z.
Proof. reflexivity. Qed.

Example createBlobFromFloat32_bytes :
  createBlobFromFloat32 [1; -1; 1 # 2] = [xff; x7f; x00; x80; x00; x40].
Proof. reflexivity. Qed.

Example decodeAudioData_stereo :
  option_map channels
    (decodeAudioData [x00; x40; x00; xc0; x00; x80; xff; x7f; x01] 48000 2)
  = Some [[inject_Z 16384 / 32768; inject_Z (-32768) / 32768];
          [inject_Z (-16384) / 32768; inject_Z 32767 / 32768]].
Proof. reflexivity. Qed.

(** C4, as the specification states it, fails: the sample 3/131072 scales
    to 0.75, which rounding takes to 1 while the code stores 0. *)
Lemma encode_rounding_counterexample :
  int16OfSample (3 # 131072) <> encodePcm16_spec (3 # 131072).
Proof. vm_compute. discriminate. Qed.

(** C4 (amended): for every sample [s], the element stored by
    [createBlobFromFloat32] is [s * 32768] clamped to [[-32768, 32767]] with
    its fractional part dropped towards zero: it is the integer within one
    of the clamped value, on its side towards zero, it needs no
    wrap-around, and its two bytes are written low byte first. *)
Theorem createBlobFromFloat32_truncates (s : Q) :
  let v := Math_max (-32768) (Math_min 32767 (s * 32768)) in
  let r := int16OfSample s in
  r = truncate v
  /\ (-32768 <= r <= 32767)%Z
  /\ Qabs (v - inject_Z r) < 1
  /\ Qabs (inject_Z r) <= Qabs v
  /\ createBlobFromFloat32 [s]
     = [byte_of_Z ((r mod 65536) mod 256); byte_of_Z ((r mod 65536) / 256)]
  /\ getInt16 (createBlobFromFloat32 [s]) 0 = Some r.
Proof.
  intros v r. subst v r. fold (clampSample s).
  destruct (int16OfSample_truncate s) as [E R].
  split; [exact E |]. split; [exact R |].
  destruct (truncate_error (clampSample s)) as [E1 E2].
  rewrite <- E in E1, E2.
  split; [exact E1 |]. split; [exact E2 |].
  split; [reflexivity |].
  apply (getInt16_blob [s] 0 s). reflexivity.
Qed.

(** C3, as the specification states it, fails on the empty buffer: its
    encoding has no bytes, and [decodeAudioData] then returns one silent
    sample, not an empty channel. *)
Lemma roundtrip_empty_counterexample :
  ~ (exists buf ch,
        decodeAudioData (createBlobFromFloat32 []) 16000 1 = Some buf
        /\ channels buf = [ch]
        /\ approxBuffer (1 # 32768) [] ch).
Proof.
  intros [buf [ch [D [C A]]]].
  vm_compute in D. injection D as <-. simpl in C. injection C as <-.
  inversion A.
Qed.

(** C3 (amended): for every non-empty sample buffer [b] whose values lie in
    [[-1, 1]], decoding (one channel) the bytes that
    [createBlobFromFloat32] produces from [b] yields one channel of the
    length of [b] that agrees with [b] within 1/32768 sample by sample. *)
Theorem pcm_roundtrip (b : list Q) (rate : Q) :
  b <> [] ->
  (forall s, In s b -> -1 <= s <= 1) ->
  exists buf ch,
    decodeAudioData (createBlobFromFloat32 b) rate 1 = Some buf
    /\ channels buf = [ch]
    /\ approxBuffer (1 # 32768) b ch.
Proof.
  intros Hne Hrange.
  destruct (decodeAudioData_spec (createBlobFromFloat32 b) rate 1)
    as [buf [D [_ [_ [BL [CL [_ CH]]]]]]]; [lia |].
  rewrite createBlobFromFloat32_length in BL, CH.
  replace (2 * List.length b / (2 * 1))%nat with (List.length b) in BL, CH
    by (rewrite Nat.mul_comm; symmetry; apply Nat.div_mul; lia).
  assert (List.length b <> 0%nat) as NZ by (destruct b; [congruence | discriminate]).
  destruct (Nat.eqb_spec (List.length b) 0) as [Z | _]; [contradiction |].
  destruct (CH 0%nat) as [ch [C0 [CLen CS]]]; [lia |].
  exists buf, ch. split; [exact D |].
  split.
  - destruct (channels buf) as [| c0 [| c1 cs]]; try discriminate.
    simpl in C0. now injection C0 as ->.
  - apply Forall2_pointwise; [lia |].
    intros i x Hx.
    destruct (CS i) as [v [V1 V2]].
    { apply nth_error_Some. congruence. }
    replace (2 * (i * 1 + 0))%nat with (2 * i)%nat in V1 by lia.
    rewrite (getInt16_blob b i x Hx) in V1. injection V1 as <-.
    exists (inject_Z (int16OfSample x) / 32768). split; [exact V2 |].
    apply roundtrip_sample. apply Hrange. eapply nth_error_In. exact Hx.
Qed.

Lemma pcm_roundtrip_witness :
  [1; -1; 1 # 3; 0] <> []
  /\ (forall s, In s [1; -1; 1 # 3; 0] -> -1 <= s <= 1)
  /\ exists buf ch,
       decodeAudioData (createBlobFromFloat32 [1; -1; 1 # 3; 0]) 16000 1
       = Some buf
       /\ channels buf = [ch]
       /\ approxBuffer (1 # 32768) [1; -1; 1 # 3; 0] ch.
Proof.
  assert ([1; -1; 1 # 3; 0] <> []) as H1 by discriminate.
  assert (forall s, In s [1; -1; 1 # 3; 0] -> -1 <= s <= 1) as H2.
  { intros s [<- | [<- | [<- | [<- | []]]]]; split; discriminate. }
  exact (conj H1 (conj H2 (pcm_roundtrip [1; -1; 1 # 3; 0] 16000 H1 H2))).
Defined.

(** C5: for every byte buffer whose length is not a multiple of
    [2 * numChannels] (at least one channel), [decodeAudioData] does not
    throw; with [n = floor(byteLength / 2 / numChannels)] it decodes the
    [n] whole frames, sample [i] of channel [c] being the little-endian
    16-bit integer at byte [2 * (i * numChannels + c)] divided by 32768;
    the buffer has [n] frames (one silent frame when [n = 0]); and the
    fewer than [2 * numChannels] trailing bytes are ignored: the result is
    that of decoding the first [2 * numChannels * n] bytes. *)
Theorem decodeAudioData_truncation (data : list byte) (rate : Q)
  (numChannels : nat) :
  (0 < numChannels)%nat ->
  (List.length data mod (2 * numChannels) <> 0)%nat ->
  let n := (List.length data / (2 * numChannels))%nat in
  exists buf,
    decodeAudioData data rate numChannels = Some buf
    /\ numSamplesOf (List.length data) numChannels = n
    /\ bufferLength buf = (if Nat.eqb n 0 then 1 else n)%nat
    /\ List.length (channels buf) = numChannels
    /\ (forall c, (c < numChannels)%nat ->
          exists ch,
            nth_error (channels buf) c = Some ch
            /\ List.length ch = bufferLength buf
            /\ forall i, (i < n)%nat ->
                 exists v,
                   getInt16 data (2 * (i * numChannels + c)) = Some v
                   /\ nth_error ch i = Some (inject_Z v / 32768))
    /\ decodeAudioData (firstn (2 * numChannels * n) data) rate numChannels
       = Some buf
    /\ (0 < List.length data - 2 * numChannels * n < 2 * numChannels)%nat.
Proof.
  intros Hc Hrem n.
  destruct (decodeAudioData_spec data rate numChannels Hc)
    as [buf [D [_ [_ [BL [CL [_ CH]]]]]]].
  fold n in BL, CH.
  exists buf.
  split; [exact D |].
  split; [apply numSamplesOf_div; exact Hc |].
  split; [exact BL |]. split; [exact CL |]. split; [exact CH |].
  split.
  - rewrite <- D. apply decodeAudioData_firstn. exact Hc.
  - pose proof (Nat.div_mod_eq (List.length data) (2 * numChannels)) as E.
    pose proof (Nat.mod_upper_bound (List.length data) (2 * numChannels)).
    fold n in E. lia.
Qed.

Lemma decodeAudioData_truncation_witness :
  (0 < 2)%nat
  /\ (List.length [x01; x00; x02; x00; x03] mod (2 * 2) <> 0)%nat
  /\ exists buf,
       decodeAudioData [x01; x00; x02; x00; x03] 48000 2 = Some buf
       /\ decodeAudioData (firstn 4 [x01; x00; x02; x00; x03]) 48000 2
          = Some buf.
Proof.
  assert (0 < 2)%nat as H1 by lia.
  assert (List.length [x01; x00; x02; x00; x03] mod (2 * 2) <> 0)%nat as H2
    by (simpl; lia).
  split; [exact H1 |]. split; [exact H2 |].
  destruct (decodeAudioData_truncation [x01; x00; x02; x00; x03] 48000 2 H1 H2)
    as [buf [D [_ [_ [_ [_ [F _]]]]]]].
  exists buf. split; [exact D | exact F].
Defined.

(** C10: for every mono signal shorter than 1024 samples the window size
    [Math.floor(length / 1024)] is 0 and all 1024 values of the envelope
    are 0, whatever the samples are. *)
Theorem waveformData_short (mono : list Q) :
  (List.length mono < 1024)%nat ->
  waveformStep (List.length mono) = 0%nat
  /\ waveformData mono = repeat 0 1024.
Proof.
  intro H.
  assert (waveformStep (List.length mono) = 0%nat) as S0.
  { unfold waveformStep. rewrite floor_div_nat.
    apply Nat.div_small. exact H. }
  split; [exact S0 |].
  unfold waveformData. rewrite S0.
  change waveformLength with 1024%nat.
  assert (forall n start,
             map (fun i : nat => windowMax mono (i * 0) 0 0) (seq start n)
             = repeat 0 n) as M.
  { induction n as [| n IH]; intro start; [reflexivity |].
    simpl. f_equal. apply IH. }
  apply M.
Qed.

Lemma waveformData_short_witness :
  (List.length [1; - (1 # 2); 3]%Q < 1024)%nat
  /\ waveformStep (List.length [1; - (1 # 2); 3]) = 0%nat
  /\ waveformData [1; - (1 # 2); 3] = repeat 0 1024.
Proof.
  assert (List.length [1; - (1 # 2); 3]%Q < 1024)%nat as H by (simpl; lia).
  exact (conj H (waveformData_short [1; - (1 # 2); 3] H)).
Defined.

End CodecClaims.

(** ** The playback scheduler *)

Section SchedulerClaims.
Import Utils Scheduler.

Lemma Qlt_bool_true (a b : Q) : Qlt_bool a b = true <-> a < b.
Proof.
  unfold Qlt_bool. rewrite negb_true_iff. split.
  - intro H. apply Qnot_le_lt. intro L. apply Qle_bool_iff in L. congruence.
  - intro H. destruct (Qle_bool b a) eqn:E; [| reflexivity].
    apply Qle_bool_iff in E. lra.
Qed.

Lemma Qlt_bool_false (a b : Q) : Qlt_bool a b = false <-> ~ a < b.
Proof.
  rewrite <- Qlt_bool_true. destruct (Qlt_bool a b); split; intro H;
    congruence || (exfalso; now apply H).
Qed.

Lemma Qeq_bool_false (a b : Q) : ~ a == b -> Qeq_bool a b = false.
Proof.
  intro H. destruct (Qeq_bool a b) eqn:E; [| reflexivity].
  apply Qeq_bool_eq in E. contradiction.
Qed.

(** The chunk of a message is always decoded: two channels. *)
Lemma chunk_decodes (data : list byte) :
  exists buf, decodeAudioData data 48000 2 = Some buf.
Proof.
  destruct (decodeAudioData_spec data 48000 2) as [buf [D _]]; [lia |].
  now exists buf.
Qed.

(** While the clock is valid the segment starts at the clock, which then
    advances by the duration of the segment. *)
Lemma scheduleSegment_valid (now : Q) (b : AudioBuffer) (s : State) :
  clockValid now s ->
  scheduleSegment now b s
  = mkState (playbackState s) (nextStartTime s + duration b) (outputNode s)
            (connections s ++ [(BufferSource (nodeCount s), outputNode s)])
            (S (nodeCount s))
            (started s
               ++ [mkScheduled (BufferSource (nodeCount s)) (nextStartTime s) b])
            (masterOutGain s) (timers s) (session s) (connectionError s).
Proof.
  intros [NZ NB]. unfold scheduleSegment.
  rewrite (Qeq_bool_false _ _ NZ).
  apply Qlt_bool_false in NB. rewrite NB. reflexivity.
Qed.

Example three_segments :
  map when
    (started
       (scheduleAll
          [(0, mkAudioBuffer 2 240 48000 []);
           (1, mkAudioBuffer 2 120 48000 []);
           (2, mkAudioBuffer 2 480 48000 [])]
          (loadAudio 0 initialState)))
  = [0 + 2; 0 + 2 + inject_Z 240 / 48000;
     0 + 2 + inject_Z 240 / 48000 + inject_Z 120 / 48000].
Proof. reflexivity. Qed.

(** C1: for any sequence of decoded segments handled while the clock is
    valid at each arrival (not the sentinel 0, not behind the device time),
    every segment is started, in arrival order, the first at the clock's
    value, and each further one exactly at its predecessor's start time
    plus its predecessor's duration. *)
Theorem gapless_scheduling (segs : list (Q * AudioBuffer)) :
  forall s : State,
    clockValidAll segs s ->
    exists new,
      started (scheduleAll segs s) = started s ++ new
      /\ map segment new = map snd segs
      /\ gapless new
      /\ match new with
         | [] => nextStartTime (scheduleAll segs s) = nextStartTime s
         | x :: _ => when x = nextStartTime s
         end.
Proof.
  induction segs as [| [now b] rest IH]; intros s V.
  - exists []. simpl. rewrite app_nil_r. auto.
  - destruct V as [V1 V2].
    destruct (IH _ V2) as [new [S1 [S2 [S3 S4]]]].
    cbn [scheduleAll].
    rewrite (scheduleSegment_valid now b s V1) in S1, S4 |- *.
    cbn [started nextStartTime] in S1, S4.
    exists (mkScheduled (BufferSource (nodeCount s)) (nextStartTime s) b :: new).
    rewrite S1, <- app_assoc.
    split; [reflexivity |]. split; [simpl; now rewrite S2 |].
    split; [| reflexivity].
    destruct new as [| y new']; [exact I |].
    cbn [gapless when segment]. split; [exact S4 | exact S3].
Qed.

Lemma gapless_scheduling_witness :
  clockValidAll [(2, mkAudioBuffer 2 240 48000 []);
                 (3, mkAudioBuffer 2 480 48000 [])]
                (scheduleSegment 1 (mkAudioBuffer 2 480 48000 [])
                   (loadAudio 0 initialState))
  /\ exists new,
       started
         (scheduleAll [(2, mkAudioBuffer 2 240 48000 []);
                       (3, mkAudioBuffer 2 480 48000 [])]
            (scheduleSegment 1 (mkAudioBuffer 2 480 48000 [])
               (loadAudio 0 initialState)))
       = started (scheduleSegment 1 (mkAudioBuffer 2 480 48000 [])
                    (loadAudio 0 initialState)) ++ new
       /\ List.length new = 2%nat
       /\ gapless new.
Proof.
  assert (clockValidAll [(2, mkAudioBuffer 2 240 48000 []);
                         (3, mkAudioBuffer 2 480 48000 [])]
            (scheduleSegment 1 (mkAudioBuffer 2 480 48000 [])
               (loadAudio 0 initialState))) as V.
  { simpl. unfold clockValid. simpl.
    repeat split; intro H; vm_compute in H; discriminate. }
  split; [exact V |].
  destruct (gapless_scheduling _ _ V) as [new [S1 [S2 [S3 _]]]].
  exists new. split; [exact S1 |]. split; [| exact S3].
  rewrite <- (length_map segment), S2. reflexivity.
Defined.

(** C2: when a chunk is decoded (playback neither paused nor stopped) and
    the clock is not the sentinel but strictly behind the device time, the
    handler returns normally with the state set to loading and the clock
    reset to 0; the segment is not started, and nothing that marks a
    failure changes (no connection error, no call on the session, no timer,
    no change of the master gain). *)
Theorem underrun_drops_segment (now : Q) (data : list byte) (s : State) :
  playbackState s <> paused ->
  playbackState s <> stopped ->
  ~ nextStartTime s == 0 ->
  nextStartTime s < now ->
  exists s',
    onAudioChunk now data s = Some s'
    /\ playbackState s' = loading
    /\ nextStartTime s' = 0
    /\ started s' = started s
    /\ connectionError s' = connectionError s
    /\ session s' = session s
    /\ timers s' = timers s
    /\ masterOutGain s' = masterOutGain s
    /\ outputNode s' = outputNode s.
Proof.
  intros NP NS NZ B.
  destruct (chunk_decodes data) as [buf D].
  exists (scheduleSegment now buf s).
  split.
  - unfold onAudioChunk. rewrite D.
    destruct (playbackState s); try reflexivity; congruence.
  - unfold scheduleSegment. rewrite (Qeq_bool_false _ _ NZ).
    apply Qlt_bool_true in B. rewrite B. cbn. auto 10.
Qed.

Lemma underrun_drops_segment_witness :
  exists s',
    onAudioChunk 5 [x01; x00; x02; x00]
      (scheduleSegment 1 (mkAudioBuffer 2 480 48000 [])
         (loadAudio 0 initialState)) = Some s'
    /\ playbackState s' = loading
    /\ nextStartTime s' = 0
    /\ List.length (started s') = 1%nat.
Proof.
  destruct (underrun_drops_segment 5 [x01; x00; x02; x00]
              (scheduleSegment 1 (mkAudioBuffer 2 480 48000 [])
                 (loadAudio 0 initialState)))
    as [s' [E [P [N [S _]]]]].
  - discriminate.
  - discriminate.
  - intro H. vm_compute in H. discriminate.
  - reflexivity.
  - exists s'. split; [exact E |]. split; [exact P |]. split; [exact N |].
    rewrite S. reflexivity.
Defined.

(** C6: when a chunk is decoded (playback neither paused nor stopped) while
    the clock is the sentinel 0, the handler sets the clock to the device
    time plus [bufferTime] = 2 seconds, starts the segment at that time (it
    is not dropped), advances the clock by the segment's duration, and
    sets a timer of 2000 ms whose callback sets the state to playing. *)
Theorem lead_buffer_initialisation (now : Q) (data : list byte) (s : State) :
  playbackState s <> paused ->
  playbackState s <> stopped ->
  nextStartTime s == 0 ->
  exists buf s',
    decodeAudioData data 48000 2 = Some buf
    /\ onAudioChunk now data s = Some s'
    /\ started s'
       = started s ++ [mkScheduled (BufferSource (nodeCount s)) (now + 2) buf]
    /\ nextStartTime s' = now + 2 + duration buf
    /\ playbackState s' = playbackState s
    /\ timers s' = timers s ++ [mkTimer now (bufferTime * 1000)]
    /\ bufferTime * 1000 == 2000
    /\ playbackState (timerFires s') = playing.
Proof.
  intros NP NS Z.
  destruct (chunk_decodes data) as [buf D].
  exists buf, (scheduleSegment now buf s).
  split; [exact D |]. split.
  - unfold onAudioChunk. rewrite D.
    destruct (playbackState s); try reflexivity; congruence.
  - unfold scheduleSegment. rewrite (Qeq_eq_bool _ _ Z).
    assert (Qlt_bool (now + bufferTime) now = false) as L.
    { apply Qlt_bool_false. unfold bufferTime. lra. }
    rewrite L. cbn. repeat split; reflexivity.
Qed.

Lemma lead_buffer_initialisation_witness :
  exists buf s',
    decodeAudioData [x01; x00; x02; x00] 48000 2 = Some buf
    /\ onAudioChunk 7 [x01; x00; x02; x00] (loadAudio 0 initialState) = Some s'
    /\ map when (started s') = [7 + 2]
    /\ nextStartTime s' = 7 + 2 + duration buf.
Proof.
  destruct (lead_buffer_initialisation 7 [x01; x00; x02; x00]
              (loadAudio 0 initialState))
    as [buf [s' [D [E [S [N _]]]]]].
  - discriminate.
  - discriminate.
  - reflexivity.
  - exists buf, s'. split; [exact D |]. split; [exact E |].
    split; [rewrite S; reflexivity | exact N].
Defined.

End SchedulerClaims.

(** ** Pausing *)

Section Pause.
Import Utils Scheduler.

Lemma feeds_more (conns extra : list Connection) (a b : AudioNode) :
  feeds conns a b -> feeds (conns ++ extra) a b.
Proof.
  induction 1 as [a | a b c E _ IH].
  - apply feeds_here.
  - apply feeds_next with (b := b); [| exact IH].
    apply in_or_app. now left.
Qed.

(** What [pauseAudio] establishes: the state is paused, the clock is the
    sentinel, the master gain is set to 1 and ramped to 0 a tenth of a
    second later, [outputNode] is a new gain node connected to the low-pass
    filter, and a chunk that arrives afterwards changes nothing. *)
Lemma pauseAudio_postcondition (now : Q) (s : State) :
  let s' := pauseAudio now s in
  playbackState s' = paused
  /\ nextStartTime s' = 0
  /\ masterOutGain s'
     = masterOutGain s ++ [SetValueAtTime 1 now;
                           LinearRampToValueAtTime 0 (now + (1 # 10))]
  /\ outputNode s' = GainNode (nodeCount s)
  /\ In (outputNode s', LowPassFilter) (connections s')
  /\ started s' = started s
  /\ forall now' data, onAudioChunk now' data s' = Some s'.
Proof.
  cbn. repeat split.
  apply in_or_app. right. now left.
Qed.

(** [pauseAudio] removes no connection: whatever reached a node before
    still reaches it. *)
Lemma pauseAudio_keeps_paths (now : Q) (s : State) (a b : AudioNode) :
  feeds (connections s) a b -> feeds (connections (pauseAudio now s)) a b.
Proof. intro H. cbn. now apply feeds_more. Qed.

Lemma in_flight_still_feeds (now : Q) (s : State) (x : Scheduled) :
  In x (started s) ->
  feeds (connections s) (source x) Destination ->
  In x (started (pauseAudio now s))
  /\ feeds (connections (pauseAudio now s)) (source x) Destination.
Proof.
  intros H F. split; [exact H | now apply pauseAudio_keeps_paths].
Qed.

Ltac hop n :=
  apply feeds_next with (b := n);
  [ cbn; repeat (first [left; reflexivity | right]) | ].

(** C7 at a concrete run: a segment is scheduled at time 2, playback is
    paused at time 1 and loaded again at time 1.1 (as [handleReset] does).
    After the pause [outputNode] is a new node, but the node the segment's
    source plays into is still connected to the low-pass filter, so the
    source still feeds the destination, and the master gain is ramped back
    to 1 before the segment starts. *)
Theorem pause_leaves_old_sink_connected :
  let buf := mkAudioBuffer 2 480 48000 [] in
  let s0 := scheduleSegment 0 buf (loadAudio 0 initialState) in
  let s1 := pauseAudio 1 s0 in
  let s2 := loadAudio (11 # 10) s1 in
  started s1 = [mkScheduled (BufferSource 1) (0 + 2) buf]
  /\ In (BufferSource 1, GainNode 0) (connections s1)
  /\ In (GainNode 0, LowPassFilter) (connections s1)
  /\ outputNode s1 = GainNode 2
  /\ feeds (connections s1) (BufferSource 1) Destination
  /\ feeds (connections s2) (BufferSource 1) Destination
  /\ masterOutGain s2
     = [SetValueAtTime 0 0; LinearRampToValueAtTime 1 (0 + (1 # 10));
        SetValueAtTime 1 1; LinearRampToValueAtTime 0 (1 + (1 # 10));
        SetValueAtTime 0 (11 # 10);
        LinearRampToValueAtTime 1 ((11 # 10) + (1 # 10))]
  /\ (11 # 10) + (1 # 10) < 0 + 2.
Proof.
  intros buf s0 s1 s2.
  assert (feeds (connections s1) (BufferSource 1) Destination) as F.
  { hop (GainNode 0). hop LowPassFilter. hop HighPassFilter.
    hop BitCrusherBypass. hop DistortionNode. hop PhaserBypass.
    hop DelayBypass. hop ReverbBypass. hop AnalyserNode. hop MasterOut.
    hop Destination. apply feeds_here. }
  split; [reflexivity |].
  split; [cbn; repeat (first [left; reflexivity | right]) |].
  split; [cbn; repeat (first [left; reflexivity | right]) |].
  split; [reflexivity |].
  split; [exact F |]. split; [exact F |].
  split; reflexivity.
Qed.

End Pause.

(** ** The bit-crusher *)

Section BitCrusher.
Import Fx.

(** Quantisation moves a sample by at most half a step. *)
Lemma quantize_error (step x : Q) :
  0 < step -> Qabs (quantize step x - x) <= step / 2.
Proof.
  intro Hs. unfold quantize, Math_floor.
  set (y := x / step).
  assert (x == y * step) as Ex by (unfold y; field; lra).
  pose proof (Qfloor_le (y + (1 # 2))) as L1.
  pose proof (Qlt_floor (y + (1 # 2))) as L2.
  rewrite inject_Z_plus in L2. change (inject_Z 1) with 1 in L2.
  set (f := inject_Z (Qfloor (y + (1 # 2)))) in *.
  assert (0 <= (y + (1 # 2) - f) * step) as P1
    by (apply Qmult_le_0_compat; lra).
  assert (0 <= (f + 1 - (y + (1 # 2))) * step) as P2
    by (apply Qmult_le_0_compat; lra).
  apply Qabs_Qle_condition.
  assert (step / 2 == step * (1 # 2)) as -> by field.
  rewrite Ex. split; lra.
Qed.

Lemma holdUpdates_one (i : nat) : holdUpdates i 1 = true.
Proof. unfold holdUpdates. simpl. now rewrite Z.rem_1_r. Qed.

Lemma last_default {A : Type} (x : A) (l : list A) (d d' : A) :
  List.last (x :: l) d = List.last (x :: l) d'.
Proof.
  revert x. induction l as [| y l IH]; intro x; [reflexivity |].
  change (List.last (y :: l) d = List.last (y :: l) d'). apply IH.
Qed.

(** With a hold length of 1 every frame replaces the held one. *)
Lemma bitCrusherLoop_one (step : Q) :
  forall (input : list (Q * Q)) (i : nat) (held : Q * Q),
    bitCrusherLoop step 1 i held input
    = (List.last input held,
       map (fun fr => (quantize step (fst fr), quantize step (snd fr))) input).
Proof.
  induction input as [| fr rest IH]; intros i held; [reflexivity |].
  cbn [bitCrusherLoop]. rewrite holdUpdates_one, IH.
  destruct rest as [| fr' rest]; [reflexivity |].
  rewrite (last_default fr' rest fr held). reflexivity.
Qed.

Example bitCrusher_default_settings :
  snd (bitCrusherProcess 8 4 (0, 0)
         [(1 # 3, 0); (1 # 2, 1); (1, 1); (1, 1); (- (1 # 1000), 1 # 1000)])
  = [((1 # 256) * inject_Z 85, (1 # 256) * inject_Z 0);
     ((1 # 256) * inject_Z 85, (1 # 256) * inject_Z 0);
     ((1 # 256) * inject_Z 85, (1 # 256) * inject_Z 0);
     ((1 # 256) * inject_Z 85, (1 # 256) * inject_Z 0);
     ((1 # 256) * inject_Z 0, (1 # 256) * inject_Z 0)].
Proof. reflexivity. Qed.

(** C9: with [bitDepth = 16] and [sampleRateReduction = 1], for every held
    sample pair and every stereo block, the output block has the frames of
    the input block, each sample moved by at most half the quantisation
    step [0.5^16], hence within the step; the held pair ends as the last
    input frame. *)
Theorem bitCrusher_near_identity (held : Q * Q) (input : list (Q * Q)) :
  let step := Qpower (1 # 2) 16 in
  let result := bitCrusherProcess 16 1 held input in
  Forall2 (fun fr out =>
             Qabs (fst out - fst fr) <= step / 2
             /\ Qabs (snd out - snd fr) <= step / 2)
          input (snd result)
  /\ step / 2 <= step
  /\ fst result = List.last input held.
Proof.
  intros step result. subst result. unfold bitCrusherProcess.
  change (Math_round 1) with 1%Z. fold step.
  rewrite bitCrusherLoop_one. cbn [fst snd].
  assert (0 < step) as Hs by reflexivity.
  split; [| split; [discriminate | reflexivity]].
  induction input as [| fr rest IH]; constructor; [| exact IH].
  cbn [fst snd]. split; apply quantize_error; exact Hs.
Qed.

End BitCrusher.

(** ** Stability of the delay feedback *)

Section Feedback.
Import Fx.

Local Open Scope string_scope.
Local Open Scope list_scope.

Create HintDb fxstable.

Lemma feedbackApplied_call (cs : list FxCall) (s : FxState) :
  feedbackApplied (call cs s)
  = feedbackApplied s
      ++ flat_map (fun c => match c with
                            | Ramp DelayFeedbackGainGain v _ => [v]
                            | _ => []
                            end) cs.
Proof. unfold feedbackApplied, call. cbn [applied]. apply flat_map_app. Qed.

(** [updateFxChain] hands exactly the parameter to the feedback gain. *)
Lemma feedbackApplied_updateFxChain (time : Q) (s : FxState) :
  feedbackApplied (updateFxChain time s)
  = feedbackApplied s ++ [num s delayFeedback].
Proof.
  unfold updateFxChain. rewrite feedbackApplied_call.
  unfold updateFxChainCalls. cbn [flat_map app].
  destruct (flag s isBitCrusherOn); reflexivity.
Qed.

Lemma num_setNum_same (f : NumField) (v : Q) (s : FxState) :
  num (setNum f v s) f = v.
Proof.
  unfold setNum. cbn [num].
  destruct (NumField_eq_dec f f); [reflexivity | congruence].
Qed.

Lemma num_setNum_other (f g : NumField) (v : Q) (s : FxState) :
  g <> f -> num (setNum f v s) g = num s g.
Proof.
  intro N. unfold setNum. cbn [num].
  destruct (NumField_eq_dec g f); [congruence | reflexivity].
Qed.

Lemma num_setFlag (f : Flag) (b : bool) (s : FxState) (g : NumField) :
  num (setFlag f b s) g = num s g.
Proof. reflexivity. Qed.

Lemma num_updateFxChain (time : Q) (s : FxState) (g : NumField) :
  num (updateFxChain time s) g = num s g.
Proof. reflexivity. Qed.

Lemma Stable_updateFxChain (time : Q) (s : FxState) :
  Stable s -> Stable (updateFxChain time s).
Proof.
  intros [A [B C]]. split; [exact A |]. split; [exact B |].
  rewrite feedbackApplied_updateFxChain. apply Forall_app. split; [exact C |].
  constructor; [exact A | constructor].
Qed.

Lemma Stable_setNum (f : NumField) (v : Q) (s : FxState) :
  f <> delayFeedback -> Stable s -> Stable (setNum f v s).
Proof.
  intros N [A [B C]]. split; [| split; [exact B | exact C]].
  unfold setNum. cbn [num].
  destruct (NumField_eq_dec delayFeedback f); [congruence | exact A].
Qed.

Lemma Stable_setFeedback (v : Q) (s : FxState) :
  (v < 1)%Q -> Stable s -> Stable (setNum delayFeedback v s).
Proof.
  intros V [A [B C]]. split; [| split; [exact B | exact C]].
  unfold setNum. cbn [num].
  destruct (NumField_eq_dec delayFeedback delayFeedback);
    [exact V | congruence].
Qed.

Lemma Stable_setFlag (f : Flag) (v : bool) (s : FxState) :
  Stable s -> Stable (setFlag f v s).
Proof. intro H. exact H. Qed.

Lemma Stable_toggle (f : Flag) (s : FxState) : Stable s -> Stable (toggle f s).
Proof. intro H. exact H. Qed.

Lemma Stable_setProgram (p : string) (s : FxState) :
  Stable s -> Stable (setProgram p s).
Proof. intro H. exact H. Qed.

Lemma Stable_setLastTap (t : Q) (s : FxState) :
  Stable s -> Stable (setLastTap t s).
Proof. intro H. exact H. Qed.

Lemma Stable_setKaossXY (x y : Q) (s : FxState) :
  (0 <= y)%Q -> Stable s -> Stable (setKaossXY (x, y) s).
Proof. intros Y [A [B C]]. split; [exact A |]. split; [exact Y | exact C]. Qed.

Lemma Stable_call_wet (cs : list FxCall) (s : FxState) :
  Forall (fun c => match c with
                   | Ramp DelayFeedbackGainGain _ _ => False
                   | _ => True
                   end) cs ->
  Stable s -> Stable (call cs s).
Proof.
  intros N [A [B C]]. split; [exact A |]. split; [exact B |].
  rewrite feedbackApplied_call. apply Forall_app. split; [exact C |].
  induction N as [| c cs Hc _ IH]; [constructor |].
  cbn [flat_map]. apply Forall_app. split; [| exact IH].
  destruct c as [[] v t | | | |]; now constructor.
Qed.

Hint Resolve Stable_updateFxChain Stable_setFlag Stable_toggle
  Stable_setProgram Stable_setLastTap : fxstable.


Lemma Stable_resetFxToNeutral (time : Q) (s : FxState) :
  Stable s -> Stable (resetFxToNeutral time s).
Proof.
  intro H. unfold resetFxToNeutral.
  apply Stable_updateFxChain.
  repeat (apply Stable_setNum; [discriminate |]). exact H.
Qed.

Lemma Stable_handleFxToggle (time : Q) (effect : string) (s : FxState) :
  Stable s -> Stable (handleFxToggle time effect s).
Proof.
  intro H. unfold handleFxToggle. apply Stable_updateFxChain.
  repeat match goal with
         | |- context [if ?b then _ else _] => destruct b
         end; auto with fxstable.
Qed.

(** The only case of the [switch] that writes the feedback is
    ["Delay Fbk"], and it writes the value of the event as it is. *)
Lemma Stable_handleControlChange (time : Q) (label : string) (value : Q)
  (s : FxState) :
  (label = "Delay Fbk" -> (value < 1)%Q) ->
  Stable s -> Stable (handleControlChange time label value s).
Proof.
  intros V H. unfold handleControlChange.
  repeat match goal with
         | |- context [if (label =? ?l) then _ else _] =>
             destruct (String.eqb_spec label l)
         end;
    try (apply Stable_updateFxChain);
    try (apply Stable_setNum; [discriminate | exact H]);
    try exact H.
  apply Stable_setFeedback; [now apply V | exact H].
Qed.

Section WithPow.
Variable Math_pow : Q -> Q -> Q.

(** The Kaoss programs keep the feedback within [0.85] of the inverted
    [y]. *)
Lemma Stable_updateKaossFx (time : Q) (s : FxState) :
  Stable s -> Stable (updateKaossFx Math_pow time s).
Proof.
  intro H. unfold updateKaossFx.
  destruct (kaossXY s) as [x y] eqn:XY.
  assert (0 <= y)%Q as Y by (destruct H as [_ [B _]]; now rewrite XY in B).
  apply Stable_updateFxChain.
  destruct (activeKaossProgram s =? "LPF Sweep Delay").
  - apply Stable_setNum; [discriminate |].
    do 4 apply Stable_setFlag.
    apply Stable_setNum; [discriminate |].
    apply Stable_setFeedback; [lra |].
    apply Stable_setNum; [discriminate | exact H].
  - destruct (activeKaossProgram s =? "HPF + Reverb Wash"); [| exact H].
    apply Stable_setNum; [discriminate |].
    do 4 apply Stable_setFlag.
    do 2 (apply Stable_setNum; [discriminate |]). exact H.
Qed.

(** The "LPF Sweep Delay" program sets the feedback from the clamped
    pointer position: between 0 and 0.85. *)
Lemma kaoss_sweep_feedback_range (time rx ry : Q) (s : FxState) :
  activeKaossProgram s = "LPF Sweep Delay" ->
  let s' := updateKaossPosition Math_pow time rx ry s in
  (0 <= num s' delayFeedback <= 85 # 100)%Q.
Proof.
  intros P s'. subst s'.
  unfold updateKaossPosition, updateKaossFx.
  cbn [kaossXY setKaossXY activeKaossProgram]. rewrite P.
  rewrite String.eqb_refl.
  rewrite num_updateFxChain, (num_setNum_other reverbMix) by discriminate.
  rewrite !num_setFlag.
  rewrite (num_setNum_other delayMix) by discriminate.
  rewrite num_setNum_same.
  destruct (Math_max_cases 0 (Math_min 1 ry)) as [[A ->] | [A ->]];
    [| lra].
  destruct (Math_min_cases 1 ry) as [[B E] | [B E]]; rewrite E in *; lra.
Qed.

Lemma Stable_updateKaossPosition (time rx ry : Q) (s : FxState) :
  Stable s -> Stable (updateKaossPosition Math_pow time rx ry s).
Proof.
  intro H. unfold updateKaossPosition.
  apply Stable_updateKaossFx. apply Stable_setKaossXY; [| exact H].
  apply Math_max_le_l.
Qed.

Lemma Stable_step (e : Event) (s : FxState) :
  feedbackBelowOne e -> Stable s -> Stable (step Math_pow e s).
Proof.
  intros V H. destruct e; cbn [step].
  - now apply Stable_handleControlChange.
  - now apply Stable_handleFxToggle.
  - unfold handleKaossPointerDown.
    apply Stable_updateKaossPosition, Stable_updateFxChain.
    apply Stable_call_wet; [repeat constructor |].
    apply Stable_setLastTap.
    destruct (Qlt_bool _ _); auto with fxstable.
  - unfold handleKaossPointerMove.
    destruct (flag s isKaossActive); [| exact H].
    now apply Stable_updateKaossPosition.
  - unfold handleKaossPointerUp.
    destruct (flag s isKaossHeld); [exact H |].
    apply Stable_call_wet; [repeat constructor |]. exact H.
  - unfold kaossReleaseTimer.
    destruct (flag s isKaossActive); [exact H |].
    now apply Stable_resetFxToNeutral.
  - unfold handleKaossProgramChange.
    destruct (flag (setProgram value s) isKaossActive).
    + now apply Stable_updateKaossFx.
    + exact H.
  - exact H.
Qed.

Lemma Stable_run (es : list Event) :
  forall s, Forall feedbackBelowOne es -> Stable s ->
            Stable (run Math_pow es s).
Proof.
  induction es as [| e es IH]; intros s V H; [exact H |].
  inversion V as [| ? ? Ve Ves]; subst.
  cbn [run fold_left]. apply IH; [exact Ves |].
  now apply Stable_step.
Qed.

End WithPow.


(** The ["Delay Fbk"] case of [handleControlChange] itself clamps nothing:
    it stores the value of the event and [updateFxChain] hands it to the
    feedback gain node.  No rendered slider has that label. *)
Lemma handleControlChange_feedback_as_given (time value : Q) (s : FxState) :
  num (handleControlChange time "Delay Fbk" value s) delayFeedback = value
  /\ feedbackApplied (handleControlChange time "Delay Fbk" value s)
     = feedbackApplied s ++ [value].
Proof.
  unfold handleControlChange.
  repeat match goal with
         | |- context [?a =? ?b] =>
             let v := eval vm_compute in (a =? b) in
             change (a =? b) with v
         end.
  cbv iota.
  rewrite feedbackApplied_updateFxChain, num_updateFxChain, num_setNum_same.
  split; reflexivity.
Qed.



Example feedback_after_pad_and_slider :
  feedbackApplied
    (step (fun _ _ => 1%Q) (ControlChange 2 "Delay Mix" (9 # 10))
       (step (fun _ _ => 1%Q) (KaossPointerDown 1 1000 (1 # 4) (- (3 # 1)))
          (initialState 0)))
  = [3 # 10; 3 # 10; (1 - 0) * (85 # 100); (1 - 0) * (85 # 100)]%Q.
Proof. reflexivity. Qed.

End Feedback.

(** * Further properties *)

(** ** The encoder and the decoder *)

Section CodecMore.
Import Utils.

Lemma Math_min_mono (c a b : Q) : a <= b -> Math_min c a <= Math_min c b.
Proof.
  intro H.
  destruct (Math_min_cases c a) as [[A ->] | [A ->]];
    destruct (Math_min_cases c b) as [[B ->] | [B ->]]; lra.
Qed.

Lemma Math_max_mono (c a b : Q) : a <= b -> Math_max c a <= Math_max c b.
Proof.
  intro H.
  destruct (Math_max_cases c a) as [[A ->] | [A ->]];
    destruct (Math_max_cases c b) as [[B ->] | [B ->]]; lra.
Qed.

Lemma truncate_mono (a b : Q) : a <= b -> (truncate a <= truncate b)%Z.
Proof.
  intro H.
  destruct (Qlt_le_dec a 0) as [Na | Pa]; destruct (Qlt_le_dec b 0) as [Nb | Pb].
  - destruct (truncate_neg a Na) as [-> _], (truncate_neg b Nb) as [-> _].
    now apply Qceiling_resp_le.
  - destruct (truncate_neg a Na) as [_ [A1 A2]].
    destruct (truncate_nonneg b Pb) as [_ [B1 B2]].
    assert (inject_Z (truncate a) < inject_Z 1) as L1
      by (change (inject_Z 1) with 1; lra).
    assert (inject_Z (-1) < inject_Z (truncate b)) as L2
      by (change (inject_Z (-1)) with (-1); lra).
    apply inject_Z_lt_inv in L1, L2. lia.
  - lra.
  - destruct (truncate_nonneg a Pa) as [-> _], (truncate_nonneg b Pb) as [-> _].
    now apply Qfloor_resp_le.
Qed.

(** X1: the encoder preserves the order of samples. *)
Theorem int16OfSample_monotone (s t : Q) :
  s <= t -> (int16OfSample s <= int16OfSample t)%Z.
Proof.
  intro H.
  destruct (int16OfSample_truncate s) as [-> _].
  destruct (int16OfSample_truncate t) as [-> _].
  apply truncate_mono. unfold clampSample.
  apply Math_max_mono, Math_min_mono. lra.
Qed.

Lemma int16OfSample_monotone_witness :
  - (1 # 3) <= 1 # 7
  /\ (int16OfSample (- (1 # 3)) <= int16OfSample (1 # 7))%Z.
Proof.
  assert (- (1 # 3) <= 1 # 7) as H by discriminate.
  exact (conj H (int16OfSample_monotone _ _ H)).
Defined.

(** X2: samples at or beyond full scale saturate: they are stored as the
    largest and the smallest 16-bit integer and never wrap around. *)
Theorem int16OfSample_saturates (s : Q) :
  1 <= s \/ s <= -1 ->
  int16OfSample s = (if Qle_bool 1 s then 32767 else -32768)%Z.
Proof.
  intro H.
  destruct (int16OfSample_truncate s) as [-> _]. unfold clampSample.
  destruct H as [H | H].
  - assert (Qle_bool 1 s = true) as -> by now apply Qle_bool_iff.
    destruct (Math_min_cases 32767 (s * 32768)) as [[A ->] | [A ->]];
      [reflexivity | lra].
  - assert (Qle_bool 1 s = false) as ->.
    { destruct (Qle_bool 1 s) eqn:E; [| reflexivity].
      apply Qle_bool_iff in E. lra. }
    destruct (Math_min_cases 32767 (s * 32768)) as [[A ->] | [A ->]]; [lra |].
    destruct (Math_max_cases (-32768) (s * 32768)) as [[B E] | [B ->]];
      [| reflexivity].
    assert (s * 32768 == -32768) as Eq by lra.
    unfold truncate. rewrite E.
    assert (Qle_bool 0 (s * 32768) = false) as ->.
    { destruct (Qle_bool 0 (s * 32768)) eqn:E0; [| reflexivity].
      apply Qle_bool_iff in E0. lra. }
    assert (- (s * 32768) == 32768) as Eq' by lra.
    rewrite (Qfloor_comp _ _ Eq'). reflexivity.
Qed.

Lemma int16OfSample_saturates_witness :
  (1 <= 5 # 2 \/ 5 # 2 <= -1) /\ int16OfSample (5 # 2) = 32767%Z.
Proof.
  assert (1 <= 5 # 2 \/ 5 # 2 <= -1) as H by (left; discriminate).
  exact (conj H (int16OfSample_saturates (5 # 2) H)).
Defined.

Lemma wrapInt16_range (n : Z) : (-32768 <= wrapInt16 n <= 32767)%Z.
Proof.
  unfold wrapInt16.
  assert (0 <= n mod 65536 < 65536)%Z as R by (apply Z.mod_pos_bound; lia).
  destruct (32768 <=? n mod 65536)%Z eqn:E;
    [apply Z.leb_le in E | apply Z.leb_gt in E]; lia.
Qed.

Lemma getInt16_range (view : list byte) (idx : nat) (v : Z) :
  getInt16 view idx = Some v -> (-32768 <= v <= 32767)%Z.
Proof.
  unfold getInt16.
  destruct (nth_error view idx) as [lo |]; [| discriminate].
  destruct (nth_error view (S idx)) as [hi |]; [| discriminate].
  unfold bind. intro H.
  assert (v = wrapInt16 (Z_of_byte lo + 256 * Z_of_byte hi)) as ->
    by congruence.
  apply wrapInt16_range.
Qed.

(** Encoding a decoded sample gives back its 16-bit integer. *)
Lemma int16OfSample_decoded (v : Z) :
  (-32768 <= v <= 32767)%Z -> int16OfSample (inject_Z v / 32768) = v.
Proof.
  intro H.
  destruct (int16OfSample_truncate (inject_Z v / 32768)) as [-> _].
  assert (inject_Z v / 32768 * 32768 == inject_Z v) as E by field.
  assert (inject_Z (-32768) <= inject_Z v <= inject_Z 32767) as [L U]
    by (split; apply inject_Z_le; lia).
  change (inject_Z (-32768)) with (-32768) in L.
  change (inject_Z 32767) with 32767 in U.
  unfold clampSample.
  destruct (Math_min_cases 32767 (inject_Z v / 32768 * 32768))
    as [[A ->] | [A ->]].
  - assert (inject_Z v == inject_Z 32767) as Ev
      by (change (inject_Z 32767) with 32767; lra).
    rewrite inject_Z_injective in Ev. subst v. reflexivity.
  - destruct (Math_max_cases (-32768) (inject_Z v / 32768 * 32768))
      as [[B ->] | [B ->]]; [| lra].
    unfold truncate. rewrite (Qleb_comp _ _ (Qeq_refl 0) _ _ E).
    rewrite (Qfloor_comp _ _ E).
    assert (- (inject_Z v / 32768 * 32768) == inject_Z (- v)) as E'
      by (rewrite inject_Z_opp; lra).
    rewrite (Qfloor_comp _ _ E'), !Qfloor_Z.
    destruct (Qle_bool 0 (inject_Z v)); lia.
Qed.

Lemma byte_of_Z_of_byte (b : byte) : byte_of_Z (Z_of_byte b) = b.
Proof.
  unfold byte_of_Z. pose proof (Z_of_byte_range b) as R.
  rewrite Z.mod_small by exact R.
  unfold Z_of_byte. rewrite N2Z.id, Byte.of_to_N. reflexivity.
Qed.

(** The two bytes of a 16-bit integer read from two bytes are those
    bytes. *)
Lemma int16Bytes_read (lo hi : byte) :
  int16Bytes (wrapInt16 (Z_of_byte lo + 256 * Z_of_byte hi)) = [lo; hi].
Proof.
  pose proof (Z_of_byte_range lo) as Rl.
  pose proof (Z_of_byte_range hi) as Rh.
  set (u := (Z_of_byte lo + 256 * Z_of_byte hi)%Z).
  assert (0 <= u < 65536)%Z as Ru by (unfold u; lia).
  assert ((wrapInt16 u) mod 65536 = u)%Z as E.
  { unfold wrapInt16. rewrite (Z.mod_small u) by exact Ru.
    destruct (32768 <=? u)%Z.
    - symmetry. apply Z.mod_unique with (q := (-1)%Z); lia.
    - apply Z.mod_small. exact Ru. }
  unfold int16Bytes. rewrite E.
  assert (u mod 256 = Z_of_byte lo)%Z as ->.
  { symmetry. apply Z.mod_unique with (q := Z_of_byte hi); unfold u; lia. }
  assert (u / 256 = Z_of_byte hi)%Z as ->.
  { symmetry. apply Z.div_unique with (r := Z_of_byte lo); unfold u; lia. }
  now rewrite !byte_of_Z_of_byte.
Qed.

Lemma fillChannel_skip (lo hi : byte) (view : list byte) :
  forall (n k : nat),
    fillChannel (lo :: hi :: view) 1 (S (S k)) n = fillChannel view 1 k n.
Proof.
  induction n as [| n IH]; intro k; [reflexivity |].
  cbn [fillChannel]. rewrite getInt16_skip.
  change (S (S k) + 1 * 2)%nat with (S (S (k + 1 * 2))). rewrite IH.
  reflexivity.
Qed.

Lemma fillChannel_mono_encodes :
  forall (n : nat) (data : list byte) (ch : list Q),
    List.length data = (2 * n)%nat ->
    fillChannel data 1 0 n = Some ch ->
    createBlobFromFloat32 ch = data.
Proof.
  induction n as [| n IH]; intros data ch L F.
  - destruct data; [| discriminate]. injection F as <-. reflexivity.
  - destruct data as [| lo [| hi rest]]; try (simpl in L; lia).
    assert (getInt16 (lo :: hi :: rest) 0
            = Some (wrapInt16 (Z_of_byte lo + 256 * Z_of_byte hi))) as G
      by reflexivity.
    change (fillChannel (lo :: hi :: rest) 1 0 (S n))
      with (sample <- getInt16 (lo :: hi :: rest) 0 ;;
            rest' <- fillChannel (lo :: hi :: rest) 1 2 n ;;
            Some (inject_Z sample / 32768 :: rest')) in F.
    rewrite G, fillChannel_skip in F. unfold bind at 1 in F.
    destruct (fillChannel rest 1 0 n) as [ch' |] eqn:E; [| discriminate].
    unfold bind in F. injection F as <-.
    unfold createBlobFromFloat32, int16Array.
    rewrite map_cons. unfold flat_map at 1. fold (flat_map int16Bytes).
    rewrite int16OfSample_decoded by apply wrapInt16_range.
    change (int16Bytes (wrapInt16 (Z_of_byte lo + 256 * Z_of_byte hi))
              ++ flat_map int16Bytes (map int16OfSample ch')
            = lo :: hi :: rest).
    rewrite int16Bytes_read.
    fold (int16Array ch'). fold (createBlobFromFloat32 ch').
    rewrite (IH rest ch'); [reflexivity | simpl in L; lia | exact E].
Qed.

(** X3: decoding then encoding is the identity on the bytes: a mono chunk of
    [n >= 1] whole samples is decoded to one channel whose encoding is the
    chunk itself. *)
Theorem decode_then_encode (data : list byte) (rate : Q) (n : nat) :
  (0 < n)%nat ->
  List.length data = (2 * n)%nat ->
  exists buf ch,
    decodeAudioData data rate 1 = Some buf
    /\ channels buf = [ch]
    /\ List.length ch = n
    /\ createBlobFromFloat32 ch = data.
Proof.
  intros Hn L. unfold decodeAudioData.
  rewrite numSamplesOf_div by lia. rewrite L.
  replace (2 * n / (2 * 1))%nat with n
    by (rewrite Nat.mul_comm; symmetry; apply Nat.div_mul; lia).
  destruct (Nat.eqb_spec n 0) as [Z | _]; [lia |].
  cbn [createBuffer bind fillChannels].
  destruct (fillChannel_spec data 1 n 0) as [ch [F [Len _]]].
  { right. rewrite L. destruct n; simpl; lia. }
  change (0 * 2)%nat with 0%nat. rewrite F. cbn [bind].
  eexists. exists ch. split; [reflexivity |]. cbn [channels].
  split; [reflexivity |]. split; [exact Len |].
  now apply (fillChannel_mono_encodes n).
Qed.

Lemma decode_then_encode_witness :
  exists buf ch,
    decodeAudioData [x34; x12; xff; xff; x00; x80] 16000 1 = Some buf
    /\ channels buf = [ch]
    /\ createBlobFromFloat32 ch = [x34; x12; xff; xff; x00; x80].
Proof.
  destruct (decode_then_encode [x34; x12; xff; xff; x00; x80] 16000 3)
    as [buf [ch [D [C [_ E]]]]]; [lia | reflexivity |].
  exists buf, ch. split; [exact D |]. split; [exact C | exact E].
Defined.

(** X4: every sample the decoder produces lies in [[-1, 32767/32768]]. *)
Theorem decodeAudioData_range (data : list byte) (rate : Q)
  (numChannels : nat) :
  (0 < numChannels)%nat ->
  exists buf,
    decodeAudioData data rate numChannels = Some buf
    /\ Forall (Forall (fun x => -1 <= x <= 32767 # 32768)) (channels buf).
Proof.
  intro Hc.
  destruct (decodeAudioData_spec data rate numChannels Hc)
    as [buf [D [_ [_ [BL [CL [Z CH]]]]]]].
  exists buf. split; [exact D |].
  set (n := (List.length data / (2 * numChannels))%nat) in *.
  destruct (Nat.eq_dec n 0) as [N0 | NZ].
  - rewrite (Z N0). apply Forall_forall. intros c Hin.
    apply repeat_spec in Hin. subst c.
    constructor; [split; discriminate | constructor].
  - apply Forall_forall. intros c Hin.
    destruct (In_nth_error _ _ Hin) as [k Hk].
    assert (k < numChannels)%nat as Hlt
      by (rewrite <- CL; apply nth_error_Some; congruence).
    destruct (CH k Hlt) as [ch [C1 [C2 C3]]].
    rewrite Hk in C1. injection C1 as <-.
    apply Forall_forall. intros x Hx.
    destruct (In_nth_error _ _ Hx) as [i Hi].
    assert (i < n)%nat as Hin'.
    { assert (i < List.length c)%nat as Hl
        by (apply nth_error_Some; congruence).
      rewrite C2, BL in Hl.
      destruct (Nat.eqb_spec n 0); [contradiction | exact Hl]. }
    destruct (C3 i Hin') as [v [V1 V2]].
    rewrite Hi in V2. injection V2 as ->.
    pose proof (getInt16_range _ _ _ V1) as [L U].
    apply inject_Z_le in L, U.
    change (inject_Z (-32768)) with (-32768) in L.
    change (inject_Z 32767) with 32767 in U.
    cbv beta. split;
      [apply Qle_shift_div_l | apply Qle_shift_div_r];
      try reflexivity; lra.
Qed.

Lemma decodeAudioData_range_witness :
  exists buf,
    decodeAudioData [x00; x80; xff; x7f; x01; x00; x02] 48000 2 = Some buf
    /\ Forall (Forall (fun x => -1 <= x <= 32767 # 32768)) (channels buf).
Proof.
  apply (decodeAudioData_range [x00; x80; xff; x7f; x01; x00; x02] 48000 2).
  lia.
Defined.

End CodecMore.

(** ** The peak envelope and the downmix *)

Section Resample.
Import Utils.

Lemma windowMax_spec (mono : list Q) :
  forall (count start : nat) (mx : Q),
    (start + count <= List.length mono)%nat ->
    mx <= windowMax mono start count mx
    /\ (forall j, (start <= j < start + count)%nat ->
          exists v, nth_error mono j = Some v
                    /\ Qabs v <= windowMax mono start count mx)
    /\ (windowMax mono start count mx = mx
        \/ exists j v, (start <= j < start + count)%nat
                       /\ nth_error mono j = Some v
                       /\ windowMax mono start count mx = Qabs v).
Proof.
  induction count as [| count IH]; intros start mx Hfit.
  - cbn [windowMax]. split; [apply Qle_refl |]. split; [| now left].
    intros j Hj. lia.
  - cbn [windowMax]. unfold readSample.
    destruct (nth_error mono start) as [v |] eqn:E.
    2:{ apply nth_error_None in E. lia. }
    unfold Math_abs.
    set (mx' := if Qle_bool (Qabs v) mx then mx else Qabs v).
    assert (mx <= mx' /\ Qabs v <= mx' /\ (mx' = mx \/ mx' = Qabs v))
      as [M1 [M2 M3]].
    { unfold mx'. destruct (Qle_bool (Qabs v) mx) eqn:B.
      - apply Qle_bool_iff in B.
        split; [apply Qle_refl |]. split; [exact B | now left].
      - assert (~ Qabs v <= mx) as N
          by (intro L; apply Qle_bool_iff in L; congruence).
        split; [lra |]. split; [apply Qle_refl | now right]. }
    destruct (IH (S start) mx') as [I1 [I2 I3]]; [lia |].
    split; [lra |]. split.
    + intros j Hj. destruct (Nat.eq_dec j start) as [-> | Nj].
      * exists v. split; [exact E | lra].
      * apply I2. lia.
    + destruct I3 as [I3 | [j [w [Hj [Hw Hr]]]]].
      * rewrite I3. destruct M3 as [-> | ->]; [now left | right].
        exists start, v. split; [lia |]. now split.
      * right. exists j, w. split; [lia |]. now split.
Qed.

Lemma waveformStep_fits (len : nat) :
  waveformStep len = (len / waveformLength)%nat
  /\ (waveformLength * waveformStep len <= len)%nat.
Proof.
  assert (waveformStep len = (len / waveformLength)%nat) as E
    by (unfold waveformStep; apply floor_div_nat).
  split; [exact E |]. rewrite E. apply Nat.Div0.mul_div_le.
Qed.

Lemma waveformData_length (mono : list Q) :
  List.length (waveformData mono) = waveformLength.
Proof. unfold waveformData. now rewrite length_map, length_seq. Qed.

Lemma waveformData_nth (mono : list Q) (i : nat) :
  (i < waveformLength)%nat ->
  let step := waveformStep (List.length mono) in
  exists m,
    nth_error (waveformData mono) i = Some m
    /\ 0 <= m
    /\ (forall j, (i * step <= j < i * step + step)%nat ->
          exists v, nth_error mono j = Some v /\ Qabs v <= m)
    /\ (m = 0
        \/ exists j v, (i * step <= j < i * step + step)%nat
                       /\ nth_error mono j = Some v /\ m = Qabs v).
Proof.
  intros Hi step.
  destruct (waveformStep_fits (List.length mono)) as [_ Hfit]. fold step in Hfit.
  assert (i * step + step <= List.length mono)%nat as Hw.
  { apply Nat.le_trans with (m := (waveformLength * step)%nat); [| exact Hfit].
    replace (i * step + step)%nat with (S i * step)%nat by (simpl; lia).
    apply Nat.mul_le_mono_r. lia. }
  exists (windowMax mono (i * step) step 0).
  split.
  - unfold waveformData. fold step.
    rewrite nth_error_map, nth_error_seq.
    destruct (Nat.ltb_spec i waveformLength); [reflexivity | lia].
  - destruct (windowMax_spec mono step (i * step) 0 Hw) as [W1 [W2 W3]].
    split; [exact W1 |]. split; [exact W2 | exact W3].
Qed.

(** X5: the envelope has 1024 values whatever the signal; value [i] is not
    negative, bounds the magnitude of every sample of window [i] (the
    samples [i * step] to [i * step + step - 1], with
    [step = floor(length / 1024)], all inside the signal) and is 0 or the
    magnitude of one of them. *)
Theorem waveformData_envelope (mono : list Q) :
  let step := (List.length mono / 1024)%nat in
  List.length (waveformData mono) = 1024%nat
  /\ waveformStep (List.length mono) = step
  /\ forall i, (i < 1024)%nat ->
       exists m,
         nth_error (waveformData mono) i = Some m
         /\ 0 <= m
         /\ (forall j, (i * step <= j < i * step + step)%nat ->
               exists v, nth_error mono j = Some v /\ Qabs v <= m)
         /\ (m = 0
             \/ exists j v, (i * step <= j < i * step + step)%nat
                            /\ nth_error mono j = Some v /\ m = Qabs v).
Proof.
  intro step.
  destruct (waveformStep_fits (List.length mono)) as [E _].
  change waveformLength with 1024%nat in E. fold step in E.
  split; [apply waveformData_length |]. split; [exact E |].
  intros i Hi. rewrite <- E. now apply waveformData_nth.
Qed.

Lemma sumChannels_spec (chans : list (list Q)) (len i : nat) (lo hi : Q) :
  Forall (fun c => List.length c = len) chans ->
  Forall (Forall (fun v => lo <= v <= hi)) chans ->
  (i < len)%nat ->
  forall (k j : nat) (sum : Q),
    (j + k <= List.length chans)%nat ->
    exists r,
      sumChannels chans i j k sum = Some r
      /\ sum + inject_Z (Z.of_nat k) * lo <= r
      /\ r <= sum + inject_Z (Z.of_nat k) * hi.
Proof.
  intros HL HR Hi.
  induction k as [| k IH]; intros j sum Hj.
  - exists sum. split; [reflexivity |].
    change (inject_Z (Z.of_nat 0)) with 0. split; lra.
  - cbn [sumChannels].
    destruct (nth_error chans j) as [c |] eqn:Ec.
    2:{ apply nth_error_None in Ec. lia. }
    pose proof (nth_error_In _ _ Ec) as Hin.
    rewrite Forall_forall in HL, HR. cbn [bind].
    destruct (nth_error c i) as [v |] eqn:Ev.
    2:{ apply nth_error_None in Ev. rewrite (HL c Hin) in Ev. lia. }
    pose proof (HR c Hin) as Rc. rewrite Forall_forall in Rc.
    pose proof (Rc v (nth_error_In _ _ Ev)) as [V1 V2].
    cbn [bind].
    destruct (IH (S j) (sum + v)) as [r [E [B1 B2]]]; [lia |].
    exists r. split; [exact E |].
    rewrite Nat2Z.inj_succ. unfold Z.succ. rewrite inject_Z_plus.
    change (inject_Z 1) with 1. split; lra.
Qed.

Lemma mixFrames_spec (chans : list (list Q)) (len : nat) (lo hi : Q) :
  (0 < List.length chans)%nat ->
  Forall (fun c => List.length c = len) chans ->
  Forall (Forall (fun v => lo <= v <= hi)) chans ->
  forall (n i : nat),
    (i + n <= len)%nat ->
    exists l,
      mixFrames chans (List.length chans) i n = Some l
      /\ List.length l = n
      /\ Forall (fun v => lo <= v <= hi) l.
Proof.
  intros Hc HL HR.
  induction n as [| n IH]; intros i Hi.
  - exists []. split; [reflexivity |]. split; [reflexivity | constructor].
  - cbn [mixFrames].
    destruct (sumChannels_spec chans len i lo hi HL HR) with
      (k := List.length chans) (j := 0%nat) (sum := 0) as [r [E [B1 B2]]];
      [lia | lia |].
    rewrite E. cbn [bind].
    destruct (IH (S i)) as [l [El [Ll Fl]]]; [lia |].
    rewrite El. cbn [bind].
    eexists. split; [reflexivity |]. split; [simpl; now rewrite Ll |].
    constructor; [| exact Fl].
    set (c := inject_Z (Z.of_nat (List.length chans))) in *.
    assert (0 < c) as Pc.
    { unfold c. change 0 with (inject_Z 0). apply inject_Z_lt. lia. }
    split; [apply Qle_shift_div_l | apply Qle_shift_div_r]; try exact Pc; lra.
Qed.

Lemma downmix_spec (b : AudioBuffer) (lo hi : Q) :
  wellFormed b ->
  Forall (Forall (fun v => lo <= v <= hi)) (channels b) ->
  exists mono,
    downmix b = Some mono
    /\ List.length mono = bufferLength b
    /\ Forall (fun v => lo <= v <= hi) mono
    /\ (numberOfChannels b = 1%nat -> channels b = [mono]).
Proof.
  intros [W1 [W2 W3]] HR. unfold downmix.
  destruct (Nat.ltb_spec 1 (numberOfChannels b)) as [Many | One].
  - rewrite <- W2.
    destruct (mixFrames_spec (channels b) (bufferLength b) lo hi)
      with (n := bufferLength b) (i := 0%nat) as [l [E [L F]]];
      try assumption; try lia.
    exists l. split; [exact E |]. split; [exact L |]. split; [exact F |].
    intro H. lia.
  - destruct (channels b) as [| c [| c' cs]] eqn:Ec;
      try (simpl in W2; lia).
    cbn [nth_error bind]. unfold setInto.
    inversion W3 as [| ? ? Lc _]; subst.
    inversion HR as [| ? ? Rc _]; subst.
    rewrite Lc, Nat.leb_refl, Nat.sub_diag. cbn [repeat].
    rewrite app_nil_r.
    exists c. split; [reflexivity |]. split; [exact Lc |].
    split; [exact Rc | reflexivity].
Qed.

(** X6: the downmix of a well-formed buffer succeeds, keeps the number of
    frames and stays within any interval that holds all the samples of the
    channels; a single channel is copied. *)
Theorem downmix_within_range (b : AudioBuffer) (lo hi : Q) :
  wellFormed b ->
  Forall (Forall (fun v => lo <= v <= hi)) (channels b) ->
  exists mono,
    downmix b = Some mono
    /\ List.length mono = bufferLength b
    /\ Forall (fun v => lo <= v <= hi) mono
    /\ (numberOfChannels b = 1%nat -> channels b = [mono]).
Proof. apply downmix_spec. Qed.

Lemma downmix_within_range_witness :
  exists mono,
    downmix (mkAudioBuffer 2 3 16000 [[1; - (1 # 2); 0]; [1 # 2; 1 # 2; -1]])
    = Some mono
    /\ Forall (fun v => -1 <= v <= 1) mono.
Proof.
  destruct (downmix_within_range
              (mkAudioBuffer 2 3 16000 [[1; - (1 # 2); 0]; [1 # 2; 1 # 2; -1]])
              (-1) 1) as [mono [D [_ [F _]]]].
  - split; [simpl; lia |]. split; [reflexivity |].
    repeat constructor.
  - repeat constructor; discriminate.
  - exists mono. split; [exact D | exact F].
Defined.

(** X7: for a well-formed resampled buffer with samples in [[-1, 1]],
    [resampleAndEncodeAudio] succeeds; the blob has two bytes per frame and
    the envelope has 1024 values, each between 0 and 1. *)
Theorem resampleAndEncodeAudio_shape (b : AudioBuffer) :
  wellFormed b ->
  Forall (Forall (fun v => -1 <= v <= 1)) (channels b) ->
  exists data waveform,
    resampleAndEncodeAudio b = Some (data, waveform)
    /\ List.length data = (2 * bufferLength b)%nat
    /\ List.length waveform = 1024%nat
    /\ Forall (fun m => 0 <= m <= 1) waveform.
Proof.
  intros W R.
  destruct (downmix_spec b (-1) 1 W R) as [mono [D [L [F _]]]].
  unfold resampleAndEncodeAudio. rewrite D. cbn [bind].
  eexists. eexists. split; [reflexivity |].
  split; [now rewrite createBlobFromFloat32_length, L |].
  split; [apply waveformData_length |].
  apply Forall_forall. intros m Hm.
  destruct (In_nth_error _ _ Hm) as [i Hi].
  assert (i < waveformLength)%nat as Hlt.
  { rewrite <- (waveformData_length mono). apply nth_error_Some. congruence. }
  destruct (waveformData_nth mono i Hlt) as [m' [E [P [_ Z]]]].
  rewrite Hi in E. injection E as <-.
  split; [exact P |].
  destruct Z as [-> | [j [v [_ [Hv ->]]]]]; [discriminate |].
  rewrite Forall_forall in F.
  destruct (F v (nth_error_In _ _ Hv)) as [V1 V2].
  apply Qabs_Qle_condition. split; lra.
Qed.

Lemma resampleAndEncodeAudio_shape_witness :
  exists data waveform,
    resampleAndEncodeAudio
      (mkAudioBuffer 2 3 16000 [[1; - (1 # 2); 0]; [1 # 2; 1 # 2; -1]])
    = Some (data, waveform)
    /\ List.length data = 6%nat
    /\ List.length waveform = 1024%nat.
Proof.
  destruct (resampleAndEncodeAudio_shape
              (mkAudioBuffer 2 3 16000 [[1; - (1 # 2); 0]; [1 # 2; 1 # 2; -1]]))
    as [data [wf [E [L1 [L2 _]]]]].
  - split; [simpl; lia |]. split; [reflexivity |].
    repeat constructor.
  - repeat constructor; discriminate.
  - exists data, wf. split; [exact E |]. split; [exact L1 | exact L2].
Defined.

End Resample.

(** ** The scheduler over any history *)

Section SchedulerMore.
Import Utils Scheduler.

(** The two outcomes of the handler once the chunk is decoded. *)
Lemma scheduleSegment_cases (now : Q) (b : AudioBuffer) (s : State) :
  let s' := scheduleSegment now b s in
  let src := BufferSource (nodeCount s) in
  connections s' = connections s ++ [(src, outputNode s)]
  /\ ((~ nextStartTime s == 0 /\ nextStartTime s < now
       /\ started s' = started s /\ nextStartTime s' = 0
       /\ playbackState s' = loading)
      \/ (exists startTime,
             started s' = started s ++ [mkScheduled src startTime b]
             /\ now <= startTime
             /\ nextStartTime s' = startTime + duration b
             /\ playbackState s' = playbackState s
             /\ ((nextStartTime s == 0 /\ startTime = now + bufferTime)
                 \/ (~ nextStartTime s == 0
                     /\ startTime = nextStartTime s)))).
Proof.
  intros s' src. subst s' src. unfold scheduleSegment.
  destruct (Qeq_bool (nextStartTime s) 0) eqn:Z.
  - apply Qeq_bool_eq in Z.
    assert (Qlt_bool (now + bufferTime) now = false) as ->
      by (apply Qlt_bool_false; unfold bufferTime; lra).
    cbn. split; [reflexivity | right].
    exists (now + bufferTime). split; [reflexivity |].
    split; [unfold bufferTime; lra |]. split; [reflexivity |].
    split; [reflexivity | left; now split].
  - apply Qeq_bool_neq in Z.
    destruct (Qlt_bool (nextStartTime s) now) eqn:B.
    + apply Qlt_bool_true in B. cbn. split; [reflexivity | left]. auto.
    + apply Qlt_bool_false in B. cbn. split; [reflexivity | right].
      exists (nextStartTime s). split; [reflexivity |].
      split; [lra |]. split; [reflexivity |].
      split; [reflexivity | right; now split].
Qed.

Lemma onAudioChunk_total (now : Q) (data : list byte) (s : State) :
  exists s', onAudioChunk now data s = Some s'.
Proof.
  destruct (chunk_decodes data) as [buf D].
  unfold onAudioChunk. rewrite D.
  destruct (playbackState s); eexists; reflexivity.
Qed.

(** X8: whatever the state, the clock and the arrival time, a chunk is either
    ignored or dropped, or started once, on a source connected to the
    current [outputNode], at a time that is not before the device time. *)
Theorem never_started_in_the_past (now : Q) (data : list byte) (s : State) :
  exists s' new,
    onAudioChunk now data s = Some s'
    /\ started s' = started s ++ new
    /\ (List.length new <= 1)%nat
    /\ Forall (fun x => now <= when x
                        /\ In (source x, outputNode s) (connections s')) new.
Proof.
  destruct (chunk_decodes data) as [buf D].
  assert (exists new,
             started s = started s ++ new /\ (List.length new <= 1)%nat
             /\ Forall (fun x => now <= when x
                                 /\ In (source x, outputNode s)
                                       (connections s)) new) as Same.
  { exists []. rewrite app_nil_r. repeat split; [simpl; lia | constructor]. }
  unfold onAudioChunk. rewrite D. cbn [bind].
  destruct (scheduleSegment_cases now buf s)
    as [C [[_ [_ [S1 _]]] | [st [S1 [S2 _]]]]].
  - destruct (playbackState s);
      try (exists s; destruct Same as [new Hn]; exists new;
           split; [reflexivity | exact Hn]);
      (exists (scheduleSegment now buf s), [];
       rewrite app_nil_r; split; [reflexivity |]; split; [exact S1 |];
       split; [simpl; lia | constructor]).
  - destruct (playbackState s);
      try (exists s; destruct Same as [new Hn]; exists new;
           split; [reflexivity | exact Hn]);
      (eexists; eexists; split; [reflexivity |]; split; [exact S1 |];
       split; [simpl; lia |]; constructor; [| constructor];
       cbn [when source]; split; [exact S2 |];
       rewrite C; apply in_or_app; right; now left).
Qed.

Lemma decoded_duration (data : list byte) (buf : AudioBuffer) :
  decodeAudioData data 48000 2 = Some buf -> 0 < duration buf.
Proof.
  intro D.
  destruct (decodeAudioData_spec data 48000 2) as [b [D' [_ [R [L _]]]]];
    [lia |].
  rewrite D in D'. injection D' as <-.
  unfold duration. rewrite R.
  apply Qlt_shift_div_l; [reflexivity |].
  rewrite Qmult_0_l. change 0 with (inject_Z 0). apply inject_Z_lt.
  rewrite L. destruct (Nat.eqb_spec (List.length data / (2 * 2)) 0); lia.
Qed.

Lemma nonOverlapping_snoc (l : list Scheduled) (x : Scheduled) :
  nonOverlapping l ->
  Forall (fun y => endOf y <= when x) l ->
  nonOverlapping (l ++ [x]).
Proof.
  induction l as [| a l IH]; intros N F; [exact I |].
  inversion F as [| ? ? Fa Fl]; subst.
  destruct l as [| b l'].
  - cbn. split; [exact Fa | exact I].
  - cbn [app nonOverlapping] in *. destruct N as [N1 N2].
    split; [exact N1 |]. apply IH; assumption.
Qed.

Lemma Forall_endOf_le (l : list Scheduled) (a b : Q) :
  a <= b -> Forall (fun x => endOf x <= a) l -> Forall (fun x => endOf x <= b) l.
Proof.
  intros H F. eapply Forall_impl; [| exact F]. cbv beta. intros x Hx. lra.
Qed.

(** One chunk keeps the started segments in order and covered. *)
Lemma covered_onAudioChunk (t now : Q) (data : list byte) (s : State) :
  covered t s -> t <= now -> 0 <= now ->
  exists s', onAudioChunk now data s = Some s' /\ covered now s'.
Proof.
  intros [N F] Ht H0.
  destruct (chunk_decodes data) as [buf D].
  pose proof (decoded_duration data buf D) as Pd.
  assert (covered now s) as Keep.
  { split; [exact N |].
    destruct (Qeq_bool (nextStartTime s) 0);
      [eapply Forall_endOf_le; [exact Ht | exact F] | exact F]. }
  assert (covered now (scheduleSegment now buf s)) as Step.
  { unfold covered.
    destruct (scheduleSegment_cases now buf s)
      as [_ [[NZ [B [S1 [S2 _]]]] | [st [S1 [S2 [S3 [_ S5]]]]]]].
    - rewrite S1, S2. split; [exact N |].
      rewrite (Qeq_bool_false _ _ NZ) in F.
      change (Qeq_bool 0 0) with true. cbv iota.
      eapply Forall_endOf_le; [| exact F]. lra.
    - rewrite S1, S3.
      assert (Forall (fun x => endOf x <= st) (started s)) as Fst.
      { destruct S5 as [[Z ->] | [NZ ->]].
        - rewrite (Qeq_eq_bool _ _ Z) in F.
          eapply Forall_endOf_le; [| exact F]. unfold bufferTime. lra.
        - rewrite (Qeq_bool_false _ _ NZ) in F. exact F. }
      assert (~ st + duration buf == 0) as NZ' by lra.
      rewrite (Qeq_bool_false _ _ NZ').
      split; [now apply nonOverlapping_snoc |].
      apply Forall_app. split.
      + eapply Forall_endOf_le; [| exact Fst]. lra.
      + constructor; [| constructor]. unfold endOf. cbn [when segment].
        apply Qle_refl. }
  unfold onAudioChunk. rewrite D. cbn [bind].
  destruct (playbackState s); eexists; (split; [reflexivity | assumption]).
Qed.

Lemma covered_onAudioChunks (chunks : list (Q * list byte)) :
  forall (t : Q) (s : State),
    covered t s -> 0 <= t -> ascending t chunks ->
    exists s' t',
      onAudioChunks chunks s = Some s' /\ covered t' s'.
Proof.
  induction chunks as [| [now data] rest IH]; intros t s C H0 A.
  - exists s, t. split; [reflexivity | exact C].
  - destruct A as [A1 A2].
    destruct (covered_onAudioChunk t now data s C A1) as [s1 [E C1]]; [lra |].
    destruct (IH now s1 C1) as [s' [t' [E' C']]]; [lra | exact A2 |].
    exists s', t'. cbn [onAudioChunks]. rewrite E. cbn [bind].
    split; [exact E' | exact C'].
Qed.

(** X9: chunks that arrive at non-decreasing, non-negative device times on a
    scheduler that has started nothing yet never overlap, under-runs and
    re-buffering included: every segment starts at or after the end of the
    one started before it. *)
Theorem chunks_never_overlap (chunks : list (Q * list byte)) (t : Q)
  (s : State) :
  started s = [] ->
  0 <= t ->
  ascending t chunks ->
  exists s',
    onAudioChunks chunks s = Some s' /\ nonOverlapping (started s').
Proof.
  intros E H0 A.
  destruct (covered_onAudioChunks chunks t s) as [s' [t' [R [N _]]]];
    try assumption.
  - unfold covered. rewrite E. split; [exact I | constructor].
  - exists s'. split; [exact R | exact N].
Qed.

Lemma chunks_never_overlap_witness :
  exists s',
    onAudioChunks [(0, [x01; x00; x02; x00]); (1, [x01; x00; x02; x00]);
                   (5, [x01; x00; x02; x00]); (6, [x01; x00; x02; x00])]
      (loadAudio 0 initialState) = Some s'
    /\ nonOverlapping (started s').
Proof.
  apply (chunks_never_overlap _ 0 (loadAudio 0 initialState)).
  - reflexivity.
  - discriminate.
  - simpl. repeat split; discriminate.
Defined.

Example underrun_then_rebuffer :
  option_map (fun s => (map when (started s), nextStartTime s, playbackState s))
    (onAudioChunks [(0, [x01; x00; x02; x00]); (5, [x01; x00; x02; x00])]
       (loadAudio 0 initialState))
  = Some ([0 + 2], 0, loading).
Proof. reflexivity. Qed.

(** [step] never fails. *)
Lemma step_total (e : Event) (s : State) : exists s', step e s = Some s'.
Proof.
  destruct e; cbn [step]; try (eexists; reflexivity).
  apply onAudioChunk_total.
Qed.

Lemma history_run_total (es : list Event) :
  forall s : State, exists s', run es s = Some s'.
Proof.
  induction es as [| e es IH]; intro s; [now exists s |].
  destruct (step_total e s) as [s1 E1]. destruct (IH s1) as [s' R].
  exists s'. cbn [run]. rewrite E1. exact R.
Qed.

Lemma step_idleClock (e : Event) (s s' : State) :
  idleClock s -> step e s = Some s' -> idleClock s'.
Proof.
  intros I. unfold idleClock in *.
  destruct e; cbn [step].
  - unfold onAudioChunk.
    destruct (chunk_decodes data) as [buf D]. rewrite D. cbn [bind].
    destruct (scheduleSegment_cases now buf s)
      as [_ [[_ [_ [_ [S2 S3]]]] | [st [_ [_ [_ [S4 _]]]]]]];
      destruct (playbackState s) eqn:P; intro E; injection E as <-;
      try (rewrite P; exact I);
      try (rewrite S3; intros [H | H]; discriminate);
      try (rewrite S4; intros [H | H]; discriminate).
  - intro E; injection E as <-. cbn. intros [H | H]; discriminate.
  - intro E; injection E as <-. unfold handlePlayPause.
    destruct (playbackState s) eqn:P; cbn; intros [H | H];
      try discriminate; try reflexivity.
  - intro E; injection E as <-. cbn. reflexivity.
  - intro E; injection E as <-. cbn. intros [H | H]; discriminate.
  - intro E; injection E as <-. cbn. reflexivity.
  - intro E; injection E as <-. cbn. reflexivity.
  - intro E; injection E as <-. cbn. exact I.
Qed.

Lemma run_idleClock (es : list Event) :
  forall s s', idleClock s -> run es s = Some s' -> idleClock s'.
Proof.
  induction es as [| e es IH]; intros s s' I R.
  - injection R as <-. exact I.
  - cbn [run] in R. destruct (step e s) as [s1 |] eqn:E; [| discriminate].
    cbn [bind] in R. apply (IH s1 s'); [| exact R].
    now apply (step_idleClock e s).
Qed.

(** X11: after any history from the constructor's state, a paused or stopped
    player has its clock at the sentinel, so that after [loadAudio] the
    first chunk is always started [bufferTime] = 2 seconds ahead of the
    device time. *)
Theorem resume_always_rebuffers (es : list Event) :
  exists s,
    run es initialState = Some s
    /\ (playbackState s = paused \/ playbackState s = stopped ->
        nextStartTime s = 0
        /\ forall (t now : Q) (data : list byte),
             exists buf s',
               decodeAudioData data 48000 2 = Some buf
               /\ onAudioChunk now data (loadAudio t s) = Some s'
               /\ started s'
                  = started s
                      ++ [mkScheduled (BufferSource (nodeCount s)) (now + 2)
                                      buf]).
Proof.
  destruct (history_run_total es initialState) as [s R].
  exists s. split; [exact R |].
  intro P.
  assert (idleClock initialState) as I0 by (intro; reflexivity).
  pose proof (run_idleClock es initialState s I0 R P) as Z.
  split; [exact Z |].
  intros t now data.
  destruct (chunk_decodes data) as [buf D].
  exists buf, (scheduleSegment now buf (loadAudio t s)).
  split; [exact D |]. split.
  - unfold onAudioChunk. rewrite D. reflexivity.
  - unfold scheduleSegment. cbn [nextStartTime loadAudio]. rewrite Z.
    change (Qeq_bool 0 0) with true. cbv iota.
    assert (Qlt_bool (now + bufferTime) now = false) as ->
      by (apply Qlt_bool_false; unfold bufferTime; lra).
    reflexivity.
Qed.

End SchedulerMore.

(** ** The bit-crusher at any depth and rate *)

Section BitCrusherMore.
Import Fx.

Lemma step_positive (bitDepth : Z) : 0 < Qpower (1 # 2) bitDepth.
Proof. apply Qpower_0_lt. reflexivity. Qed.

Lemma floor_half (k : Z) : Qfloor (inject_Z k + (1 # 2)) = k.
Proof.
  pose proof (Qfloor_le (inject_Z k + (1 # 2))) as L.
  pose proof (Qlt_floor (inject_Z k + (1 # 2))) as U.
  rewrite inject_Z_plus in U. change (inject_Z 1) with 1 in U.
  set (f := Qfloor (inject_Z k + (1 # 2))) in *.
  assert (inject_Z f < inject_Z (k + 1)) as A
    by (rewrite inject_Z_plus; change (inject_Z 1) with 1; lra).
  assert (inject_Z (k - 1) < inject_Z f) as B.
  { unfold Z.sub. rewrite inject_Z_plus. change (inject_Z (- (1))) with (-1).
    lra. }
  apply inject_Z_lt_inv in A, B. lia.
Qed.

(** A quantised sample is a fixed point of the quantiser. *)
Lemma quantize_idempotent (step x : Q) :
  0 < step -> quantize step (quantize step x) = quantize step x.
Proof.
  intro Hs. unfold quantize, Math_floor.
  set (k := Qfloor (x / step + (1 # 2))).
  assert (step * inject_Z k / step + (1 # 2) == inject_Z k + (1 # 2)) as E
    by (field; lra).
  rewrite (Qfloor_comp _ _ E), floor_half. reflexivity.
Qed.

(** X12: with a rate of 1, crushing a crushed block again at the same bit depth
    changes nothing, whatever the depth and the held samples. *)
Theorem bitCrusher_idempotent (bitDepth : Z) (held held' : Q * Q)
  (input : list (Q * Q)) :
  let once := snd (bitCrusherProcess bitDepth 1 held input) in
  snd (bitCrusherProcess bitDepth 1 held' once) = once.
Proof.
  intro once. subst once. unfold bitCrusherProcess.
  change (Math_round 1) with 1%Z.
  rewrite !bitCrusherLoop_one. cbn [snd].
  rewrite map_map. apply map_ext. intros [l r]. cbn [fst snd].
  pose proof (step_positive bitDepth) as Hs.
  now rewrite !quantize_idempotent.
Qed.

(** X13: with a rate of 1 every sample moves by at most half the quantisation
    step [0.5^bitDepth], at every bit depth. *)
Theorem bitCrusher_error_any_depth (bitDepth : Z) (held : Q * Q)
  (input : list (Q * Q)) :
  let step := Qpower (1 # 2) bitDepth in
  Forall2 (fun fr out =>
             Qabs (fst out - fst fr) <= step / 2
             /\ Qabs (snd out - snd fr) <= step / 2)
          input (snd (bitCrusherProcess bitDepth 1 held input)).
Proof.
  intro step. unfold bitCrusherProcess.
  change (Math_round 1) with 1%Z. fold step.
  rewrite bitCrusherLoop_one. cbn [snd].
  pose proof (step_positive bitDepth) as Hs. fold step in Hs.
  induction input as [| fr rest IH]; constructor; [| exact IH].
  cbn [fst snd]. split; apply quantize_error; exact Hs.
Qed.

Lemma holdUpdates_nat (i N : nat) :
  (0 < N)%nat ->
  holdUpdates i (Z.of_nat N) = Nat.eqb (i mod N) 0.
Proof.
  intro HN. unfold holdUpdates.
  destruct (Z.eqb_spec (Z.of_nat N) 0) as [Z0 | _]; [lia |].
  rewrite Z.rem_mod_nonneg by lia.
  rewrite <- Nat2Z.inj_mod.
  destruct (Nat.eqb_spec (i mod N) 0) as [E | NE].
  - rewrite E. reflexivity.
  - apply Z.eqb_neq. lia.
Qed.

(** [Math.round] takes every rate within one half of [k] (the upper half
    excluded) to [k]. *)
Lemma round_near (r : Q) (k : Z) :
  inject_Z k - (1 # 2) <= r < inject_Z k + (1 # 2) -> Math_round r = k.
Proof.
  intros [L U]. unfold Math_round.
  pose proof (Qfloor_le (r + (1 # 2))) as A.
  pose proof (Qlt_floor (r + (1 # 2))) as B.
  rewrite inject_Z_plus in B. change (inject_Z 1) with 1 in B.
  set (f := Qfloor (r + (1 # 2))) in *.
  assert (inject_Z f < inject_Z (k + 1)) as A'
    by (rewrite inject_Z_plus; change (inject_Z 1) with 1; lra).
  assert (inject_Z (k - 1) < inject_Z f) as B'.
  { unfold Z.sub. rewrite inject_Z_plus. change (inject_Z (- (1))) with (-1).
    lra. }
  apply inject_Z_lt_inv in A', B'. lia.
Qed.

(** The largest multiple of [N] that is at most [x]. *)
Lemma hold_index (N x k : nat) :
  (0 < N)%nat -> (k <= x)%nat -> (k mod N = 0)%nat ->
  (k <= x - x mod N)%nat.
Proof.
  intros HN Hk Hm.
  pose proof (Nat.div_mod_eq x N) as Ex.
  pose proof (Nat.div_mod_eq k N) as Ek.
  rewrite Hm in Ek.
  pose proof (Nat.Div0.div_le_mono k x N Hk) as Hd.
  assert (N * (k / N) <= N * (x / N))%nat by (apply Nat.mul_le_mono_l; exact Hd).
  lia.
Qed.

Lemma bitCrusherLoop_hold (step : Q) (N : nat) :
  (0 < N)%nat ->
  forall (input : list (Q * Q)) (k : nat) (held : Q * Q) (j : nat),
    (j < List.length input)%nat ->
    let m := (k + j - (k + j) mod N)%nat in
    let out := snd (bitCrusherLoop step (Z.of_nat N) k held input) in
    ((k <= m)%nat ->
       exists fr, nth_error input (m - k) = Some fr
                  /\ nth_error out j = Some (crushFrame step fr))
    /\ ((m < k)%nat -> nth_error out j = Some (crushFrame step held)).
Proof.
  intro HN.
  induction input as [| frame rest IH]; intros k held j Hj;
    [simpl in Hj; lia |].
  cbn [bitCrusherLoop]. rewrite holdUpdates_nat by exact HN.
  set (held' := if Nat.eqb (k mod N) 0 then frame else held).
  destruct (bitCrusherLoop step (Z.of_nat N) (S k) held' rest)
    as [final outs] eqn:E.
  cbn [snd].
  pose proof (Nat.mod_upper_bound (k + j) N ltac:(lia)) as Hmod.
  destruct j as [| j].
  - rewrite Nat.add_0_r. cbn [nth_error]. unfold held'.
    destruct (Nat.eqb_spec (k mod N) 0) as [Z | NZ].
    + rewrite Z, Nat.sub_0_r, Nat.sub_diag. split.
      * intros _. exists frame. split; reflexivity.
      * intro H. lia.
    + pose proof (Nat.Div0.mod_le k N) as Hle. split.
      * intro H. lia.
      * intros _. reflexivity.
  - cbn [nth_error].
    specialize (IH (S k) held' j ltac:(simpl in Hj; lia)).
    rewrite E in IH. cbn [snd] in IH.
    replace (S k + j)%nat with (k + S j)%nat in IH by lia.
    cbv zeta in IH. destruct IH as [I1 I2].
    set (m := (k + S j - (k + S j) mod N)%nat) in *.
    split.
    + intro Hk. destruct (Nat.eq_dec m k) as [Em | Nm].
      * (* the held frame is the one at [k] *)
        assert (k mod N = 0)%nat as Z.
        { rewrite <- Em. unfold m.
          pose proof (Nat.div_mod_eq (k + S j) N) as Ex.
          replace (k + S j - (k + S j) mod N)%nat
            with ((k + S j) / N * N)%nat by lia.
          apply Nat.Div0.mod_mul. }
        rewrite Em, Nat.sub_diag. exists frame. split; [reflexivity |].
        rewrite I2 by lia. unfold held'. rewrite Z. reflexivity.
      * destruct I1 as [fr [F1 F2]]; [lia |].
        exists fr. split; [| exact F2].
        replace (m - k)%nat with (S (m - S k)) by lia. exact F1.
    + intro Hk.
      assert (k mod N <> 0)%nat as NZ.
      { intro Z. pose proof (hold_index N (k + S j) k HN ltac:(lia) Z).
        fold m in H. lia. }
      rewrite I2 by lia. unfold held'.
      destruct (Nat.eqb_spec (k mod N) 0); [contradiction | reflexivity].
Qed.

(** X14: zero-order hold: with any rate that rounds to [N >= 1] (any rate
    from [N - 0.5] up to, not including, [N + 0.5]), output frame [i] of a
    block is the quantised input frame at the last multiple of [N] at or
    below [i], whatever was held before the block. *)
Theorem bitCrusher_holds (bitDepth : Z) (sampleRateReduction : Q) (N : nat)
  (held : Q * Q) (input : list (Q * Q)) (i : nat) :
  (0 < N)%nat ->
  inject_Z (Z.of_nat N) - (1 # 2) <= sampleRateReduction
    < inject_Z (Z.of_nat N) + (1 # 2) ->
  (i < List.length input)%nat ->
  let step := Qpower (1 # 2) bitDepth in
  let out := snd (bitCrusherProcess bitDepth sampleRateReduction held input) in
  exists fr,
    nth_error input (i - i mod N) = Some fr
    /\ nth_error out i
       = Some (quantize step (fst fr), quantize step (snd fr)).
Proof.
  intros HN HR Hi step out. subst out. unfold bitCrusherProcess.
  rewrite (round_near sampleRateReduction (Z.of_nat N) HR). fold step.
  destruct (bitCrusherLoop_hold step N HN input 0 held i Hi) as [H _].
  cbn [Nat.add] in H. rewrite Nat.sub_0_r in H.
  apply H. lia.
Qed.

Lemma bitCrusher_holds_witness :
  (inject_Z (Z.of_nat 4) - (1 # 2) <= 7 # 2 < inject_Z (Z.of_nat 4) + (1 # 2))
  /\ exists fr,
       nth_error [(1 # 3, 0); (1 # 2, 1); (1, 1); (1, 1); (1 # 5, 1 # 7);
                  (0, 0); (1, 0)]
         (6 - 6 mod 4) = Some fr
       /\ nth_error
            (snd (bitCrusherProcess 8 (7 # 2) (0, 0)
                    [(1 # 3, 0); (1 # 2, 1); (1, 1); (1, 1); (1 # 5, 1 # 7);
                     (0, 0); (1, 0)]))
            6
          = Some (quantize (Qpower (1 # 2) 8) (fst fr),
                  quantize (Qpower (1 # 2) 8) (snd fr)).
Proof.
  assert (inject_Z (Z.of_nat 4) - (1 # 2) <= 7 # 2
            < inject_Z (Z.of_nat 4) + (1 # 2)) as HR
    by (split; [discriminate | reflexivity]).
  split; [exact HR |].
  apply (bitCrusher_holds 8 (7 # 2) 4 (0, 0)
           [(1 # 3, 0); (1 # 2, 1); (1, 1); (1, 1); (1 # 5, 1 # 7);
            (0, 0); (1, 0)] 6);
    [lia | exact HR | simpl; lia].
Defined.

Example bitCrusher_rate_three_and_a_half :
  map fst (snd (bitCrusherProcess 2 (7 # 2) (0, 0)
                  [(1 # 4, 0); (1 # 2, 0); (3 # 4, 0); (1, 0); (1 # 2, 0)]))
  = [(1 # 4) * inject_Z 1; (1 # 4) * inject_Z 1; (1 # 4) * inject_Z 1;
     (1 # 4) * inject_Z 1; (1 # 4) * inject_Z 2].
Proof. reflexivity. Qed.

Lemma bitCrusherLoop_frozen (step : Q) :
  forall (input : list (Q * Q)) (i : nat) (held : Q * Q),
    bitCrusherLoop step 0 i held input
    = (held, map (fun _ => crushFrame step held) input).
Proof.
  induction input as [| fr rest IH]; intros i held; [reflexivity |].
  cbn [bitCrusherLoop]. change (holdUpdates i 0) with false. cbv iota.
  rewrite IH. reflexivity.
Qed.

(** X15: A rate that rounds to 0 (below one half) never refreshes the held
    samples: the whole block is the quantised held pair, whatever the
    input, and the held pair is unchanged. *)
Theorem bitCrusher_freezes (bitDepth : Z) (sampleRateReduction : Q)
  (held : Q * Q) (input : list (Q * Q)) :
  - (1 # 2) <= sampleRateReduction < 1 # 2 ->
  let step := Qpower (1 # 2) bitDepth in
  bitCrusherProcess bitDepth sampleRateReduction held input
  = (held,
     map (fun _ => (quantize step (fst held), quantize step (snd held))) input).
Proof.
  intros [L U] step. unfold bitCrusherProcess.
  assert (Math_round sampleRateReduction = 0%Z) as ->.
  { unfold Math_round.
    pose proof (Qfloor_le (sampleRateReduction + (1 # 2))) as A.
    pose proof (Qlt_floor (sampleRateReduction + (1 # 2))) as B.
    rewrite inject_Z_plus in B. change (inject_Z 1) with 1 in B.
    set (f := Qfloor (sampleRateReduction + (1 # 2))) in *.
    assert (inject_Z f < inject_Z 1) as A'
      by (change (inject_Z 1) with 1; lra).
    assert (inject_Z (-1) < inject_Z f) as B'
      by (change (inject_Z (-1)) with (-1); lra).
    apply inject_Z_lt_inv in A', B'. lia. }
  fold step. apply bitCrusherLoop_frozen.
Qed.

Lemma bitCrusher_freezes_witness :
  snd (bitCrusherProcess 8 (1 # 4) (1 # 3, 1 # 3) [(1, 1); (0, 0)])
  = [(quantize (Qpower (1 # 2) 8) (1 # 3), quantize (Qpower (1 # 2) 8) (1 # 3));
     (quantize (Qpower (1 # 2) 8) (1 # 3), quantize (Qpower (1 # 2) 8) (1 # 3))].
Proof.
  rewrite (bitCrusher_freezes 8 (1 # 4) (1 # 3, 1 # 3) [(1, 1); (0, 0)]).
  - reflexivity.
  - split; [discriminate | reflexivity].
Defined.

End BitCrusherMore.

(** ** The Kaoss pad and the ramps of the effects chain *)

Section KaossMore.
Import Fx.

Local Open Scope string_scope.
Local Open Scope list_scope.

Variable Math_pow : Q -> Q -> Q.

Lemma clamp01 (r : Q) : (0 <= Math_max 0 (Math_min 1 r) <= 1)%Q.
Proof.
  destruct (Math_max_cases 0 (Math_min 1 r)) as [[A ->] | [A ->]];
    [| split; discriminate].
  split; [exact A |].
  destruct (Math_min_cases 1 r) as [[B ->] | [B ->]]; lra.
Qed.

Lemma kaossXY_updateKaossFx (time : Q) (s : FxState) :
  kaossXY (updateKaossFx Math_pow time s) = kaossXY s.
Proof.
  unfold updateKaossFx. destruct (kaossXY s) as [x y] eqn:XY.
  destruct (activeKaossProgram s =? "LPF Sweep Delay"); [exact XY |].
  destruct (activeKaossProgram s =? "HPF + Reverb Wash"); exact XY.
Qed.

Lemma kaossXY_updateKaossPosition (time rx ry : Q) (s : FxState) :
  inUnitSquare (kaossXY (updateKaossPosition Math_pow time rx ry s)).
Proof.
  unfold updateKaossPosition. rewrite kaossXY_updateKaossFx.
  split; apply clamp01.
Qed.

Lemma kaossXY_handleControlChange (time : Q) (label : string) (value : Q)
  (s : FxState) :
  kaossXY (handleControlChange time label value s) = kaossXY s.
Proof.
  unfold handleControlChange.
  repeat match goal with
         | |- context [if ?b then _ else _] => destruct b
         end; reflexivity.
Qed.

Lemma kaossXY_handleFxToggle (time : Q) (effect : string) (s : FxState) :
  kaossXY (handleFxToggle time effect s) = kaossXY s.
Proof.
  unfold handleFxToggle.
  repeat match goal with
         | |- context [if ?b then _ else _] => destruct b
         end; reflexivity.
Qed.

Lemma inUnitSquare_step (e : Event) (s : FxState) :
  inUnitSquare (kaossXY s) -> inUnitSquare (kaossXY (step Math_pow e s)).
Proof.
  intro H. destruct e; cbn [step].
  - now rewrite kaossXY_handleControlChange.
  - now rewrite kaossXY_handleFxToggle.
  - apply kaossXY_updateKaossPosition.
  - unfold handleKaossPointerMove.
    destruct (flag s isKaossActive);
      [apply kaossXY_updateKaossPosition | exact H].
  - unfold handleKaossPointerUp.
    destruct (flag s isKaossHeld); exact H.
  - unfold kaossReleaseTimer.
    destruct (flag s isKaossActive); exact H.
  - unfold handleKaossProgramChange.
    destruct (flag (setProgram value s) isKaossActive); [| exact H].
    rewrite kaossXY_updateKaossFx. exact H.
  - exact H.
Qed.

(** X16: the pad position stays in the unit square through every history,
    whatever coordinates the pointer events carry. *)
Theorem kaossXY_in_unit_square (time : Q) (es : list Event) :
  inUnitSquare (kaossXY (run Math_pow es (initialState time))).
Proof.
  assert (forall s, inUnitSquare (kaossXY s) ->
                    inUnitSquare (kaossXY (run Math_pow es s))) as G.
  { induction es as [| e es IH]; intros s H; [exact H |].
    cbn [run fold_left]. apply IH. now apply inUnitSquare_step. }
  apply G. cbn. split; split; discriminate.
Qed.

Lemma flag_setNum (f : NumField) (v : Q) (s : FxState) (g : Flag) :
  flag (setNum f v s) g = flag s g.
Proof. reflexivity. Qed.

Lemma flag_setFlag_same (f : Flag) (b : bool) (s : FxState) :
  flag (setFlag f b s) f = b.
Proof.
  unfold setFlag. cbn [flag].
  destruct (Flag_eq_dec f f); [reflexivity | congruence].
Qed.

Lemma flag_setFlag_other (f g : Flag) (b : bool) (s : FxState) :
  g <> f -> flag (setFlag f b s) g = flag s g.
Proof.
  intro N. unfold setFlag. cbn [flag].
  destruct (Flag_eq_dec g f); [congruence | reflexivity].
Qed.

Lemma flag_updateFxChain (t : Q) (s : FxState) (g : Flag) :
  flag (updateFxChain t s) g = flag s g.
Proof. reflexivity. Qed.

(** X18: what a pointer position does under each program: under "LPF Sweep
    Delay" the feedback is within [[0, 0.85]] and the delay mix within
    [[0.2, 0.9]], the reverb mix is zeroed, low-pass and delay are on,
    high-pass and reverb off; under "HPF + Reverb Wash" the reverb mix is
    within [[0.15, 0.8]], the delay mix is zeroed, high-pass and reverb are
    on, low-pass and delay off, and the feedback is left as it was. *)
Theorem kaoss_program_ranges (time rx ry : Q) (s : FxState) :
  let s' := updateKaossPosition Math_pow time rx ry s in
  (activeKaossProgram s = "LPF Sweep Delay" ->
     (0 <= num s' delayFeedback <= 85 # 100)%Q
     /\ (2 # 10 <= num s' delayMix <= 9 # 10)%Q
     /\ num s' reverbMix = 0%Q
     /\ flag s' isLpfOn = true /\ flag s' isDelayOn = true
     /\ flag s' isHpfOn = false /\ flag s' isReverbOn = false)
  /\ (activeKaossProgram s = "HPF + Reverb Wash" ->
        (15 # 100 <= num s' reverbMix <= 8 # 10)%Q
        /\ num s' delayMix = 0%Q
        /\ num s' delayFeedback = num s delayFeedback
        /\ flag s' isHpfOn = true /\ flag s' isReverbOn = true
        /\ flag s' isLpfOn = false /\ flag s' isDelayOn = false).
Proof.
  intro s'. subst s'. unfold updateKaossPosition, updateKaossFx.
  cbn [kaossXY setKaossXY activeKaossProgram].
  pose proof (clamp01 ry) as [Y0 Y1].
  set (y := Math_max 0 (Math_min 1 ry)) in *.
  set (s0 := setKaossXY (Math_max 0 (Math_min 1 rx), y) s).
  split; intro P; rewrite P.
  - rewrite String.eqb_refl.
    rewrite !num_updateFxChain, !flag_updateFxChain.
    refine (conj _ (conj _ (conj _ (conj _ (conj _ (conj _ _)))))).
    + rewrite (num_setNum_other reverbMix) by discriminate.
      rewrite !num_setFlag, (num_setNum_other delayMix) by discriminate.
      rewrite num_setNum_same. split; lra.
    + rewrite (num_setNum_other reverbMix) by discriminate.
      rewrite !num_setFlag, num_setNum_same. split; lra.
    + apply num_setNum_same.
    + rewrite flag_setNum.
      rewrite !(flag_setFlag_other _ isLpfOn) by discriminate.
      apply flag_setFlag_same.
    + rewrite flag_setNum.
      rewrite !(flag_setFlag_other _ isDelayOn) by discriminate.
      apply flag_setFlag_same.
    + rewrite flag_setNum.
      rewrite !(flag_setFlag_other _ isHpfOn) by discriminate.
      apply flag_setFlag_same.
    + rewrite flag_setNum. apply flag_setFlag_same.
  - change ("HPF + Reverb Wash" =? "LPF Sweep Delay") with false.
    rewrite String.eqb_refl. cbv iota.
    rewrite !num_updateFxChain, !flag_updateFxChain.
    refine (conj _ (conj _ (conj _ (conj _ (conj _ (conj _ _)))))).
    + rewrite (num_setNum_other delayMix) by discriminate.
      rewrite !num_setFlag, num_setNum_same. split; lra.
    + apply num_setNum_same.
    + rewrite (num_setNum_other delayMix) by discriminate.
      rewrite !num_setFlag.
      rewrite !(num_setNum_other _ delayFeedback) by discriminate.
      reflexivity.
    + rewrite flag_setNum.
      rewrite !(flag_setFlag_other _ isHpfOn) by discriminate.
      apply flag_setFlag_same.
    + rewrite flag_setNum.
      rewrite !(flag_setFlag_other _ isReverbOn) by discriminate.
      apply flag_setFlag_same.
    + rewrite flag_setNum.
      rewrite !(flag_setFlag_other _ isLpfOn) by discriminate.
      apply flag_setFlag_same.
    + rewrite flag_setNum. apply flag_setFlag_same.
Qed.

(** X19: releasing the pad without hold, then the release timer with no new
    touch: both mixes are zeroed and both cut-offs are at their neutral
    values, while the feedback and every switch but [isKaossActive] stay as
    the program left them. *)
Theorem kaoss_release (t1 t2 : Q) (s : FxState) :
  flag s isKaossHeld = false ->
  let s' := kaossReleaseTimer t2 (handleKaossPointerUp t1 s) in
  num s' reverbMix = 0%Q /\ num s' delayMix = 0%Q
  /\ num s' lowPassFreq = 22050%Q /\ num s' highPassFreq = 20%Q
  /\ num s' delayFeedback = num s delayFeedback
  /\ flag s' isKaossActive = false
  /\ forall f, f <> isKaossActive -> flag s' f = flag s f.
Proof.
  intros H s'. subst s'. unfold handleKaossPointerUp. rewrite H.
  unfold kaossReleaseTimer.
  assert (flag (call [CancelScheduledValues ReverbWetGain t1;
                      Ramp ReverbWetGain 0 (t1 + (25 # 100));
                      CancelScheduledValues DelayWetGain t1;
                      Ramp DelayWetGain 0 (t1 + (25 # 100))]
                  (setFlag isKaossActive false s)) isKaossActive = false)
    as A by apply flag_setFlag_same.
  rewrite A. unfold resetFxToNeutral.
  rewrite !num_updateFxChain, !flag_updateFxChain.
  refine (conj _ (conj _ (conj _ (conj _ (conj _ (conj _ _)))))).
  - rewrite !(num_setNum_other _ reverbMix) by discriminate.
    apply num_setNum_same.
  - rewrite !(num_setNum_other _ delayMix) by discriminate.
    apply num_setNum_same.
  - rewrite (num_setNum_other highPassFreq) by discriminate.
    apply num_setNum_same.
  - apply num_setNum_same.
  - rewrite !(num_setNum_other _ delayFeedback) by discriminate.
    reflexivity.
  - exact A.
  - intros f Nf.
    change (flag (setFlag isKaossActive false s) f = flag s f).
    now apply flag_setFlag_other.
Qed.

Lemma kaoss_release_witness :
  num (kaossReleaseTimer 2
         (handleKaossPointerUp 1
            (updateKaossPosition (fun _ _ => 1%Q) 0 (1 # 4) (1 # 4)
               (initialState 0)))) delayMix = 0%Q.
Proof.
  apply (kaoss_release 1 2
           (updateKaossPosition (fun _ _ => 1%Q) 0 (1 # 4) (1 # 4)
              (initialState 0))).
  reflexivity.
Defined.

End KaossMore.

(** ** Helpers and controls *)

Section ControlsMore.
Import Utils Controls.

Local Open Scope string_scope.
Local Open Scope list_scope.

(** X20: the calls that [throttle] lets through are at least [delay] apart, the
    first at least [delay] after the initial [lastCall], whatever the times
    of the calls; they are calls that were made, in their order. *)
Theorem throttle_spacing (delay : Q) (calls : list Q) :
  forall lastCall : Q,
    spaced delay lastCall (throttleRun delay calls lastCall)
    /\ incl (throttleRun delay calls lastCall) calls.
Proof.
  induction calls as [| now rest IH]; intro lastCall.
  - split; [exact I | apply incl_refl].
  - cbn [throttleRun]. unfold throttleCall.
    destruct (Qle_bool delay (now - lastCall)) eqn:E.
    + destruct (IH now) as [S1 S2]. split.
      * cbn [spaced]. split; [now apply Qle_bool_iff | exact S1].
      * apply incl_cons; [now left | now apply incl_tl].
    + destruct (IH lastCall) as [S1 S2]. split; [exact S1 |].
      now apply incl_tl.
Qed.

Example throttle_drops_trailing_call :
  throttleRun 200 [1000; 1100; 1199; 1200; 1350; 1400] 0 = [1000; 1200; 1400]%Q.
Proof. reflexivity. Qed.

Lemma randomIndex_lt (r : Q) (n : nat) :
  (0 <= r < 1)%Q -> (0 < n)%nat -> (randomIndex r n < n)%nat.
Proof.
  intros [R0 R1] Hn. unfold randomIndex, Math_floor.
  set (c := inject_Z (Z.of_nat n)).
  assert (0 < c)%Q as Pc
    by (unfold c; change 0%Q with (inject_Z 0); apply inject_Z_lt; lia).
  assert (0 <= r * c)%Q as P0 by (apply Qmult_le_0_compat; lra).
  assert (r * c < c)%Q as P1.
  { assert (0 < (1 - r) * c)%Q by (apply Qmult_lt_0_compat; lra). lra. }
  pose proof (Qfloor_le (r * c)) as F.
  assert (inject_Z (Qfloor (r * c)) < inject_Z (Z.of_nat n))%Q as U
    by (fold c; lra).
  apply inject_Z_lt_inv in U.
  assert (0 <= Qfloor (r * c))%Z as L.
  { change 0%Z with (Qfloor 0). now apply Qfloor_resp_le. }
  lia.
Qed.

Lemma includes_In (l : list string) (c : string) :
  includes l c = true <-> In c l.
Proof.
  unfold includes. rewrite existsb_exists. split.
  - intros [x [Hx E]]. apply String.eqb_eq in E. now subst x.
  - intro H. exists c. split; [exact H | apply String.eqb_refl].
Qed.

(** X21: for a random number in [[0, 1)] the function returns a colour of the
    palette, and never one that is in use while some colour of the palette
    is not. *)
Theorem getUnusedRandomColor_unused (r : Q) (usedColors : list string) :
  (0 <= r < 1)%Q ->
  exists c,
    getUnusedRandomColor r usedColors = Some c
    /\ In c COLORS
    /\ ((exists c', In c' COLORS /\ ~ In c' usedColors) -> ~ In c usedColors).
Proof.
  intro R. unfold getUnusedRandomColor.
  set (available := filter (fun c => negb (includes usedColors c)) COLORS).
  destruct (Nat.eqb_spec (List.length available) 0) as [E | NE].
  - assert (randomIndex r (List.length COLORS) < List.length COLORS)%nat as L
      by (apply randomIndex_lt; [exact R | simpl; lia]).
    destruct (nth_error COLORS (randomIndex r (List.length COLORS)))
      as [c |] eqn:N; [| apply nth_error_None in N; lia].
    exists c. split; [reflexivity |].
    split; [eapply nth_error_In; exact N |].
    intros [c' [H1 H2]]. exfalso.
    assert (In c' available) as H.
    { apply filter_In. split; [exact H1 |].
      apply negb_true_iff. destruct (includes usedColors c') eqn:I;
        [apply includes_In in I; contradiction | reflexivity]. }
    destruct available; [contradiction | discriminate].
  - assert (randomIndex r (List.length available) < List.length available)%nat
      as L by (apply randomIndex_lt; [exact R | lia]).
    destruct (nth_error available (randomIndex r (List.length available)))
      as [c |] eqn:N; [| apply nth_error_None in N; lia].
    exists c. split; [reflexivity |].
    apply nth_error_In in N. apply filter_In in N. destruct N as [N1 N2].
    split; [exact N1 |]. intros _ H.
    apply includes_In in H. rewrite H in N2. discriminate.
Qed.

Lemma getUnusedRandomColor_unused_witness :
  exists c,
    getUnusedRandomColor (7 # 8) ["#be00ff"; "#ff8928"; "#0094ff"] = Some c
    /\ In c COLORS
    /\ ~ In c ["#be00ff"; "#ff8928"; "#0094ff"].
Proof.
  destruct (getUnusedRandomColor_unused (7 # 8)
              ["#be00ff"; "#ff8928"; "#0094ff"]) as [c [E [I N]]].
  - split; [discriminate | reflexivity].
  - exists c. split; [exact E |]. split; [exact I |].
    apply N. exists "#ff00a0". split; [cbn; tauto |].
    cbn. intros [H | [H | [H | []]]]; discriminate.
Defined.

(** X22: the weight of a slider stays within [[0, 2]]: after a wheel event,
    whatever the delta and the old value, and after a drag on a track of
    positive height (2 at or above the top of the track, 0 at or below its
    bottom). *)
Theorem weightSlider_range (deltaY value top trackHeight clientY : Q) :
  (0 < trackHeight)%Q ->
  (0 <= handleWheel deltaY value <= 2)%Q
  /\ (0 <= updateValueFromPosition (Some (top, trackHeight)) clientY value
      <= 2)%Q
  /\ (clientY <= top ->
      updateValueFromPosition (Some (top, trackHeight)) clientY value == 2)%Q
  /\ (top + trackHeight <= clientY ->
      updateValueFromPosition (Some (top, trackHeight)) clientY value == 0)%Q.
Proof.
  intro H. split.
  - unfold handleWheel.
    destruct (Math_max_cases 0 (Math_min 2 (value + deltaY * - (5 # 1000))))
      as [[A ->] | [A ->]]; [| split; discriminate].
    split; [exact A |].
    destruct (Math_min_cases 2 (value + deltaY * - (5 # 1000)))
      as [[B ->] | [B ->]]; lra.
  - unfold updateValueFromPosition.
    set (p := Math_max 0 (Math_min trackHeight (clientY - top))).
    assert (0 <= p <= trackHeight)%Q as [P0 P1].
    { unfold p.
      destruct (Math_max_cases 0 (Math_min trackHeight (clientY - top)))
        as [[A ->] | [A ->]]; [| lra].
      split; [exact A |].
      destruct (Math_min_cases trackHeight (clientY - top))
        as [[B ->] | [B ->]]; lra. }
    assert (0 <= p / trackHeight)%Q as Q0
      by (apply Qle_shift_div_l; [exact H | lra]).
    assert (p / trackHeight <= 1)%Q as Q1
      by (apply Qle_shift_div_r; [exact H | lra]).
    split; [split; lra |].
    split.
    + intro Hc. assert (p == 0)%Q as E.
      { unfold p.
        destruct (Math_max_cases 0 (Math_min trackHeight (clientY - top)))
          as [[A E1] | [A E1]];
          destruct (Math_min_cases trackHeight (clientY - top))
            as [[B E2] | [B E2]];
          rewrite E1; rewrite ?E2; rewrite E2 in A; lra. }
      assert (p / trackHeight == 0)%Q as E' by (rewrite E; field; lra).
      rewrite E'. lra.
    + intro Hc. assert (p == trackHeight)%Q as E.
      { unfold p.
        destruct (Math_max_cases 0 (Math_min trackHeight (clientY - top)))
          as [[A E1] | [A E1]];
          destruct (Math_min_cases trackHeight (clientY - top))
            as [[B E2] | [B E2]];
          rewrite E1; rewrite ?E2; rewrite E2 in A; lra. }
      assert (p / trackHeight == 1)%Q as E' by (rewrite E; field; lra).
      rewrite E'. lra.
Qed.

Lemma weightSlider_range_witness :
  (0 <= handleWheel 1000 (1 # 2) <= 2)%Q
  /\ (updateValueFromPosition (Some (10, 200)) 60 0 == 3 # 2)%Q.
Proof.
  split.
  - apply (weightSlider_range 1000 (1 # 2) 10 200 60). reflexivity.
  - reflexivity.
Defined.

Lemma sumBins_spec (data : list byte) :
  forall (n i : nat) (sum : Q),
    (i + n <= List.length data)%nat ->
    exists r,
      sumBins data i n sum = Some r
      /\ (sum <= r <= sum + 255 * inject_Z (Z.of_nat n))%Q.
Proof.
  induction n as [| n IH]; intros i sum H.
  - exists sum. split; [reflexivity |].
    change (inject_Z (Z.of_nat 0)) with 0%Q. split; lra.
  - cbn [sumBins].
    destruct (nth_error data i) as [b |] eqn:E.
    2:{ apply nth_error_None in E. lia. }
    cbn [bind].
    destruct (IH (S i) (sum + inject_Z (Z_of_byte b))%Q) as [r [R [B1 B2]]];
      [lia |].
    exists r. split; [exact R |].
    pose proof (Z_of_byte_range b) as [L U].
    assert (inject_Z 0 <= inject_Z (Z_of_byte b) <= inject_Z 255)%Q as [L' U']
      by (split; apply inject_Z_le; lia).
    change (inject_Z 0) with 0%Q in L'. change (inject_Z 255) with 255%Q in U'.
    rewrite Nat2Z.inj_succ. unfold Z.succ. rewrite inject_Z_plus.
    change (inject_Z 1) with 1%Q. split; lra.
Qed.

(** X23: over a non-empty range of bins inside the data the average is a number
    between 0 and 1. *)
Theorem getAverageFrequency_range (data : list byte) (start end_ : nat) :
  (start < end_)%nat ->
  (end_ <= List.length data)%nat ->
  exists v,
    getAverageFrequency data start end_ = Some v /\ (0 <= v <= 1)%Q.
Proof.
  intros H1 H2. unfold getAverageFrequency.
  destruct (sumBins_spec data (end_ - start) start 0%Q) as [r [R [B1 B2]]];
    [lia |].
  rewrite R. cbn [bind].
  destruct (Nat.eqb_spec end_ start) as [E | _]; [lia |].
  eexists. split; [reflexivity |].
  set (n := (inject_Z (Z.of_nat end_) - inject_Z (Z.of_nat start))%Q).
  assert (inject_Z (Z.of_nat (end_ - start)) == n)%Q as En.
  { unfold n. rewrite Nat2Z.inj_sub by lia. unfold Z.sub.
    rewrite inject_Z_plus, inject_Z_opp. reflexivity. }
  rewrite En in B2.
  assert (0 < n)%Q as Pn.
  { assert (inject_Z (Z.of_nat start) < inject_Z (Z.of_nat end_))%Q
      by (apply inject_Z_lt; lia).
    unfold n. lra. }
  assert (0 <= r / n)%Q as Q0 by (apply Qle_shift_div_l; [exact Pn | lra]).
  assert (r / n <= 255)%Q as Q1 by (apply Qle_shift_div_r; [exact Pn | lra]).
  split; [apply Qle_shift_div_l | apply Qle_shift_div_r];
    try reflexivity; lra.
Qed.

Lemma getAverageFrequency_range_witness :
  exists v,
    getAverageFrequency [x10; xff; x00; x80] 1 3 = Some v /\ (0 <= v <= 1)%Q.
Proof.
  apply (getAverageFrequency_range [x10; xff; x00; x80] 1 3); simpl; lia.
Defined.

End ControlsMore.
